(** * zoo-locked: the ZooKeeper try-lock recipe of [main.c]

    A shallow embedding of [src/main.c]: the string helpers of the C library
    the program calls, the ordering functions ([vstrcmp], [sort_children],
    [child_floor]), the candidate lookup ([lookupnode], [getName]), the
    enumeration wrapper ([retry_getchildren]) and [main] itself, run against a
    scripted ZooKeeper server. *)

From Stdlib Require Import ZArith List Bool Ascii String Lia Permutation Sorted.
From Stdlib Require Import Floats.PrimFloat Floats.FloatOps Floats.SpecFloat.
From Stdlib Require Import Numbers.Cyclic.Int63.PrimInt63.
Import ListNotations.

Local Open Scope string_scope.
Local Open Scope list_scope.
Local Open Scope nat_scope.

(** ** The C library functions the program uses

    A value of type [string] stands for a C string: the characters before the
    terminating NUL, which is left implicit. *)

Module Libc.

Definition byte (c : ascii) : Z := Z.of_N (N_of_ascii c).

Definition strlen (s : string) : nat := String.length s.

(** [strcmp]: the difference of the first two bytes that differ, the
    terminator counting as byte 0.  The program only looks at the sign. *)
Fixpoint strcmp (a b : string) : Z :=
  match a, b with
  | EmptyString, EmptyString => 0
  | EmptyString, String d _ => (0 - byte d)%Z
  | String c _, EmptyString => (byte c - 0)%Z
  | String c a', String d b' =>
      if Ascii.eqb c d then strcmp a' b' else (byte c - byte d)%Z
  end.

(** [strncmp]: as [strcmp], over at most [n] bytes. *)
Fixpoint strncmp (a b : string) (n : nat) : Z :=
  match n with
  | O => 0%Z
  | S n' =>
      match a, b with
      | EmptyString, EmptyString => 0
      | EmptyString, String d _ => (0 - byte d)%Z
      | String c _, EmptyString => (byte c - 0)%Z
      | String c a', String d b' =>
          if Ascii.eqb c d then strncmp a' b' n' else (byte c - byte d)%Z
      end
  end.

(** [strrchr s c]: the tail of [s] that starts at the last [c], or [None]
    (the NULL pointer) when [s] has no [c]. *)
Fixpoint strrchr (s : string) (c : ascii) : option string :=
  match s with
  | EmptyString => None
  | String d s' =>
      match strrchr s' c with
      | Some r => Some r
      | None => if Ascii.eqb d c then Some s else None
      end
  end.

(** [p + 1] for a pointer [p] into a string. *)
Definition ptr_succ (p : string) : string :=
  match p with
  | EmptyString => EmptyString
  | String _ r => r
  end.

(** [strdup]: a fresh copy; allocation is taken to succeed. *)
Definition strdup (s : string) : string := s.

End Libc.

Import Libc.

(** ** Ordering of the children (main.c, lines 72-91) *)

(** [vstrcmp], the comparator handed to [qsort]: it compares what follows the
    last ['-'] of either name.  For a name without ['-'] the source
    dereferences [NULL + 1]; that is [None] here. *)
Definition vstrcmp (a b : string) : option Z :=
  match strrchr a "-", strrchr b "-" with
  | Some sa, Some sb => Some (strcmp (ptr_succ sa) (ptr_succ sb))
  | _, _ => None
  end.

(** [qsort] is only specified up to its result: a permutation of the array
    ordered by the comparator.  It is run here as an insertion sort that asks
    the same comparator; [sort_children_Permutation] and
    [sort_children_ordered] below are the two facts the C standard gives.
    Entries that tie keep the order they came in, as in a merge sort; C
    leaves their order open, so what is stated below of sorted enumerations
    of a run is stated of any permutation ordered by the comparator, which
    is this one where nothing ties ([ordered_permutation_unique]). *)
Fixpoint qsort_insert (x : string) (sorted : list string) : option (list string) :=
  match sorted with
  | [] => Some [x]
  | y :: rest =>
      match vstrcmp x y with
      | None => None
      | Some c =>
          if (c <=? 0)%Z then Some (x :: y :: rest)
          else match qsort_insert x rest with
               | None => None
               | Some r => Some (y :: r)
               end
      end
  end.

Fixpoint sort_children (vector : list string) : option (list string) :=
  match vector with
  | [] => Some []
  | x :: rest =>
      match sort_children rest with
      | None => None
      | Some s => qsort_insert x s
      end
  end.

(** [child_floor]: the loop of lines 85-89 with its accumulator [ret]. *)
Fixpoint child_floor_loop (sorted_data : list string) (element : string)
    (ret : option string) : option string :=
  match sorted_data with
  | [] => ret
  | d :: rest =>
      child_floor_loop rest element
        (if (strcmp d element <? 0)%Z then Some d else ret)
  end.

Definition child_floor (sorted_data : list string) (element : string) : option string :=
  child_floor_loop sorted_data element None.

(** ** Candidate lookup (main.c, lines 96-101 and 124-137) *)

Definition getName (str : string) : option string :=
  match strrchr str "/" with
  | None => None
  | Some name => Some (strdup (ptr_succ name))
  end.

(** A [String_vector] is the list of its [count] entries; [data == NULL] is the
    empty list. *)
Fixpoint lookupnode (vector : list string) (prefix : string) : option string :=
  match vector with
  | [] => None
  | child :: rest =>
      if (strncmp prefix child (strlen prefix) =? 0)%Z then Some (strdup child)
      else lookupnode rest prefix
  end.

(** The sequence suffix of a name, as [vstrcmp] reads it. *)
Definition seq_suffix (name : string) : option string :=
  match strrchr name "-" with
  | None => None
  | Some s => Some (ptr_succ s)
  end.

(** [prefix] begins [s]. *)
Fixpoint begins_with (prefix s : string) : bool :=
  match prefix, s with
  | EmptyString, _ => true
  | String c p', String d s' => Ascii.eqb c d && begins_with p' s'
  | String _ _, EmptyString => false
  end.


(** ** The ZooKeeper client library, as the program sees it *)

(** Modelled from the spec: the return codes of the client calls,
    [enum ZOO_ERRORS] of [zookeeper.h], a header of the client library that
    is not in the repository.  The source names [ZOK], [ZCONNECTIONLOSS] (the
    transient connectivity error) and [ZNONODE] (absent) and treats every
    other code alike; [ZNODEEXISTS] is the "already exists" of the spec and
    the remaining members are its other errors. *)
Inductive ZOO_ERRORS : Set :=
| ZOK
| ZSYSTEMERROR
| ZRUNTIMEINCONSISTENCY
| ZCONNECTIONLOSS
| ZMARSHALLINGERROR
| ZOPERATIONTIMEOUT
| ZBADARGUMENTS
| ZINVALIDSTATE
| ZAPIERROR
| ZNONODE
| ZNOAUTH
| ZNODEEXISTS
| ZSESSIONEXPIRED.

Definition rc_eqb (a b : ZOO_ERRORS) : bool :=
  match a, b with
  | ZOK, ZOK | ZSYSTEMERROR, ZSYSTEMERROR
  | ZRUNTIMEINCONSISTENCY, ZRUNTIMEINCONSISTENCY
  | ZCONNECTIONLOSS, ZCONNECTIONLOSS | ZMARSHALLINGERROR, ZMARSHALLINGERROR
  | ZOPERATIONTIMEOUT, ZOPERATIONTIMEOUT | ZBADARGUMENTS, ZBADARGUMENTS
  | ZINVALIDSTATE, ZINVALIDSTATE | ZAPIERROR, ZAPIERROR | ZNONODE, ZNONODE
  | ZNOAUTH, ZNOAUTH | ZNODEEXISTS, ZNODEEXISTS
  | ZSESSIONEXPIRED, ZSESSIONEXPIRED => true
  | _, _ => false
  end.

(** Modelled from the spec: the create modes, [ZOO_EPHEMERAL] and
    [ZOO_SEQUENCE] of the client library, as bit flags. *)
Definition ZOO_EPHEMERAL : Z := Z.shiftl 1 0.
Definition ZOO_SEQUENCE : Z := Z.shiftl 1 1.

Record timespec : Set := { tv_sec : Z; tv_nsec : Z }.

(** What [zookeeper_init] gives back: a handle, or NULL with [errno] set. *)
Inductive init_result : Set :=
| Handle
| Null (errno : Z).

(** Modelled from the spec: the coordination service behind the handle.  The
    server and the network are a script: the [n]-th call of each kind gets the
    [n]-th reply.  A reply carries the return code and what the server sends
    back on [ZOK]: the path the store assigned for a create, of which the
    caller gets what fits its buffer, and the children for an enumeration. *)
Record zhandle_t : Type := {
  init_reply : init_result;
  exists_reply : nat -> ZOO_ERRORS;
  create_reply : nat -> ZOO_ERRORS * string;
  children_reply : nat -> ZOO_ERRORS * list string;
  client_id_reply : nat -> Z
}.

(** Everything the process does that can be seen from outside. *)
Inductive event : Type :=
| Zoo_exists (path : string)
| Zoo_create (path : string) (flags : Z)
| Zoo_get_children (path : string)
| Nanosleep (ts : timespec)
| Sleep (seconds : Z)
| Fprintf_stderr (format arg : string)
| Printf (format arg : string)
| Zookeeper_close.

(** The state of a run: how many calls of each kind were made, and the trace
    of events so far, oldest first. *)
Record process : Type := {
  exists_calls : nat;
  create_calls : nat;
  children_calls : nat;
  client_id_calls : nat;
  trace : list event
}.

Definition start : process :=
  {| exists_calls := 0; create_calls := 0; children_calls := 0;
     client_id_calls := 0; trace := [] |}.

(** The state monad of the run. *)
Definition io (A : Type) : Type := process -> A * process.

Definition ret {A : Type} (a : A) : io A := fun p => (a, p).

Definition bind {A B : Type} (m : io A) (k : A -> io B) : io B :=
  fun p => let (a, p') := m p in k a p'.

Notation "x <- m ;; k" := (bind m (fun x => k))
  (at level 61, m at next level, right associativity).
Notation "m ;;; k" := (bind m (fun _ => k))
  (at level 61, right associativity).

Definition emit (e : event) : io unit :=
  fun p => (tt, {| exists_calls := exists_calls p;
                   create_calls := create_calls p;
                   children_calls := children_calls p;
                   client_id_calls := client_id_calls p;
                   trace := trace p ++ [e] |}).

Definition zoo_exists (zh : zhandle_t) (path : string) : io ZOO_ERRORS :=
  fun p => (exists_reply zh (exists_calls p),
            {| exists_calls := S (exists_calls p);
               create_calls := create_calls p;
               children_calls := children_calls p;
               client_id_calls := client_id_calls p;
               trace := trace p ++ [Zoo_exists path] |}).

(** Modelled from the spec: the create call of the client library,
    [zoo_create(zh, path, NULL, 0, acl, flags, path_buffer, path_buffer_len)].
    The second component is what the call leaves in [path_buffer]: the client
    copies the path of the created node there as far as it fits, which is
    [path_buffer_len - 1] characters and the terminator; nothing with
    [NULL, 0]. *)
Definition zoo_create (zh : zhandle_t) (path : string) (flags : Z)
    (path_buffer_len : nat) : io (ZOO_ERRORS * string) :=
  fun p => ((fst (create_reply zh (create_calls p)),
             String.substring 0 (path_buffer_len - 1)
               (snd (create_reply zh (create_calls p)))),
            {| exists_calls := exists_calls p;
               create_calls := S (create_calls p);
               children_calls := children_calls p;
               client_id_calls := client_id_calls p;
               trace := trace p ++ [Zoo_create path flags] |}).

Definition zoo_get_children (zh : zhandle_t) (path : string)
  : io (ZOO_ERRORS * list string) :=
  fun p => (children_reply zh (children_calls p),
            {| exists_calls := exists_calls p;
               create_calls := create_calls p;
               children_calls := S (children_calls p);
               client_id_calls := client_id_calls p;
               trace := trace p ++ [Zoo_get_children path] |}).

(** [zoo_client_id(zh)->client_id]: a read of the handle, no server call. *)
Definition zoo_client_id (zh : zhandle_t) : io Z :=
  fun p => (client_id_reply zh (client_id_calls p),
            {| exists_calls := exists_calls p;
               create_calls := create_calls p;
               children_calls := children_calls p;
               client_id_calls := S (client_id_calls p);
               trace := trace p |}).

Definition nanosleep (ts : timespec) : io unit := emit (Nanosleep ts).
Definition sleep (seconds : Z) : io unit := emit (Sleep seconds).
Definition fprintf_stderr (format arg : string) : io unit :=
  emit (Fprintf_stderr format arg).
Definition printf (format arg : string) : io unit := emit (Printf format arg).
Definition zookeeper_close : io unit := emit Zookeeper_close.

(** ** Formatting *)

(** The newline that ends the format strings. *)
Definition nl : string := String "010"%char EmptyString.

(** [snprintf(buf, size, ...)] keeps at most [size - 1] characters. *)
Definition snprintf (size : nat) (formatted : string) : string :=
  String.substring 0 (size - 1) formatted.

Definition hex_digit (d : Z) : ascii :=
  match d with
  | 0%Z => "0" | 1%Z => "1" | 2%Z => "2" | 3%Z => "3" | 4%Z => "4"
  | 5%Z => "5" | 6%Z => "6" | 7%Z => "7" | 8%Z => "8" | 9%Z => "9"
  | 10%Z => "a" | 11%Z => "b" | 12%Z => "c" | 13%Z => "d" | 14%Z => "e"
  | _ => "f"
  end%char.

Fixpoint lower_hex (width : nat) (v : Z) (acc : string) : string :=
  match width with
  | O => acc
  | S w => lower_hex w (v / 16)%Z (String (hex_digit (v mod 16)%Z) acc)
  end.

(** ["x-%016lx-"] of an [int64_t] session: the value is printed as the
    unsigned 64-bit number with the same bits, which has at most 16 hex
    digits. *)
Definition session_prefix (session : Z) : string :=
  snprintf 30 ("x-" ++ lower_hex 16 (session mod 2 ^ 64)%Z "" ++ "-")%string.

(** Conversion of a [double] to [long]: the fraction is discarded.  The
    conversion of a NaN or an infinity is undefined in C; it is 0 here. *)
Definition double_to_long (f : float) : Z :=
  match Prim2SF f with
  | S754_finite s m e =>
      let v := if (0 <=? e)%Z then (Z.pos m * 2 ^ e)%Z
               else Z.quot (Z.pos m) (2 ^ (- e)) in
      if s then (- v)%Z else v
  | _ => 0%Z
  end.

(** ** [retry_getchildren] (main.c, lines 106-118)

    The [while] loop with its variables [ret] and [count]; [vector] is what
    the caller's [String_vector] holds, which [zoo_get_children] overwrites
    only on [ZOK].  The loop makes at most [retry] rounds, so the [retry + 1]
    units of [fuel] it is given let it end by its own test
    ([retry_getchildren_loop_runs]). *)
Fixpoint retry_getchildren_loop (fuel : nat) (zh : zhandle_t) (path : string)
    (vector : list string) (ts : timespec) (retry : nat)
    (ret_ : ZOO_ERRORS) (count : nat) : io (ZOO_ERRORS * list string) :=
  match fuel with
  | O => ret (ret_, vector)
  | S fuel' =>
      if rc_eqb ret_ ZCONNECTIONLOSS && (count <? retry)%nat then
        r <- zoo_get_children zh path ;;
        let vector := if rc_eqb (fst r) ZOK then snd r else vector in
        if rc_eqb (fst r) ZCONNECTIONLOSS then
          nanosleep ts ;;;
          retry_getchildren_loop fuel' zh path vector ts retry (fst r) (S count)
        else
          retry_getchildren_loop fuel' zh path vector ts retry (fst r) count
      else ret (ret_, vector)
  end.

Definition retry_getchildren (zh : zhandle_t) (path : string)
    (vector : list string) (ts : timespec) (retry : nat)
  : io (ZOO_ERRORS * list string) :=
  retry_getchildren_loop (S retry) zh path vector ts retry ZCONNECTIONLOSS 0.

(** ** [main] (main.c, lines 198-318) *)

(** The locals of [main] that outlive one round of the lock loop. *)
Record locals : Set := { id : option string; ownerid : option string }.

(** How a round of the lock loop ends. *)
Inductive control : Set :=
| Continue      (* [continue], or the end of the body *)
| Break         (* line 297 *)
| Goto_exitnow  (* line 294 *)
| Undefined.    (* the round reads outside the vector or through NULL *)

(** Lines 223-231: the directory loop, with its variables [exists] and
    [count]. *)
Fixpoint ensure_loop (fuel : nat) (zh : zhandle_t) (path : string)
    (ts : timespec) (maxretry : nat) (exists_ : ZOO_ERRORS) (count : nat)
  : io (ZOO_ERRORS * nat) :=
  match fuel with
  | O => ret (exists_, count)
  | S fuel' =>
      if (rc_eqb exists_ ZCONNECTIONLOSS || rc_eqb exists_ ZNONODE)
         && (count <? maxretry)%nat then
        let count := S count in
        nanosleep ts ;;;
        if rc_eqb exists_ ZCONNECTIONLOSS then
          e <- zoo_exists zh path ;;
          ensure_loop fuel' zh path ts maxretry e count
        else if rc_eqb exists_ ZNONODE then
          r <- zoo_create zh path 0 0 ;;
          ensure_loop fuel' zh path ts maxretry (fst r) count
        else ensure_loop fuel' zh path ts maxretry exists_ count
      else ret (exists_, count)
  end.

(** Lines 261-277: find this session's node among the children, or create it.
    [None] is the [continue] of line 274; [Some i] is the value [id] has at
    line 279.  The create is given [retbuf] with its [len + 20] bytes, and
    [getName] reads what the call left there. *)
Definition resolve_candidate (zh : zhandle_t) (path prefix : string)
    (vector : list string) : io (option (option string)) :=
  match lookupnode vector prefix with
  | Some i => ret (Some (Some i))
  | None =>
      let len := strlen path + strlen prefix + 2 in
      let buf := snprintf len (path ++ "/" ++ prefix)%string in
      r <- zoo_create zh buf (Z.lor ZOO_EPHEMERAL ZOO_SEQUENCE) (len + 20) ;;
      let retbuf := snd r in
      if negb (rc_eqb (fst r) ZOK) then
        fprintf_stderr ("Could not create locking node %s" ++ nl)%string buf ;;;
        ret None
      else ret (Some (getName retbuf))
  end.

(** Lines 279-301: enumerate again, sort, and decide.  The vector handed to
    [retry_getchildren] is the one [free_String_vector] has emptied.
    [sprintf] into [last_child] has room for the whole of ["%s/%s"]. *)
Definition decide (zh : zhandle_t) (path : string) (ts : timespec)
    (maxretry : nat) (i : string) (vars : locals) : io (control * locals) :=
  r <- retry_getchildren zh path [] ts maxretry ;;
  if negb (rc_eqb (fst r) ZOK) then
    fprintf_stderr ("Could not enumerate folder %s" ++ nl)%string path ;;;
    ret (Continue, {| id := Some i; ownerid := ownerid vars |})
  else
    match sort_children (snd r) with
    | None => ret (Undefined, {| id := Some i; ownerid := ownerid vars |})
    | Some [] => ret (Undefined, {| id := Some i; ownerid := ownerid vars |})
    | Some (first :: rest) =>
        let vars := {| id := Some i; ownerid := Some (strdup first) |} in
        match child_floor (first :: rest) i with
        | Some lessthanme =>
            let last_child := (path ++ "/" ++ lessthanme)%string in
            printf ("LOCKED: %s" ++ nl)%string last_child ;;;
            ret (Goto_exitnow, vars)
        | None => ret (Break, vars)
        end
    end.

(** Lines 243-301: the body of the lock loop after its [count++] and
    [nanosleep]. *)
Definition lock_attempt (zh : zhandle_t) (path : string) (ts : timespec)
    (maxretry : nat) (vars : locals) : io (control * locals) :=
  session <- zoo_client_id zh ;;
  let prefix := session_prefix session in
  r <- retry_getchildren zh path [] ts maxretry ;;
  if negb (rc_eqb (fst r) ZOK) then
    fprintf_stderr ("Could not enumerate folder %s" ++ nl)%string path ;;;
    ret (Continue, vars)
  else
    c <- resolve_candidate zh path prefix (snd r) ;;
    match c with
    | None => ret (Continue, {| id := None; ownerid := ownerid vars |})
    | Some None => ret (Continue, {| id := None; ownerid := ownerid vars |})
    | Some (Some i) => decide zh path ts maxretry i vars
    end.

(** Lines 239-302: the lock loop.  A round that ends in [Continue] goes back
    to the loop test; the loop hands back [Continue] when the test fails. *)
Fixpoint lock_loop (fuel : nat) (zh : zhandle_t) (path : string)
    (ts : timespec) (maxretry : nat) (count : nat) (vars : locals)
  : io (control * nat * locals) :=
  match fuel with
  | O => ret (Continue, count, vars)
  | S fuel' =>
      if (count <? maxretry)%nat then
        let count := S count in
        nanosleep ts ;;;
        r <- lock_attempt zh path ts maxretry vars ;;
        match fst r with
        | Continue => lock_loop fuel' zh path ts maxretry count (snd r)
        | c => ret (c, count, snd r)
        end
      else ret (Continue, count, vars)
  end.

(** The label [exitnow]. *)
Definition exitnow : io (option Z) :=
  zookeeper_close ;;; ret (Some 0%Z).

(** The delay of lines 218-220: [ts.tv_nsec = (.5)*1000000], a [double]
    product stored into a [long]. *)
Definition ts_init : timespec :=
  {| tv_sec := 0; tv_nsec := double_to_long (0.5 * of_uint63 1000000%uint63)%float |}.

(** [main]: [path] is [argv[2]]; the result is the exit status, [None] when
    the run ran into undefined behaviour. *)
Definition main (zh : zhandle_t) (path : string) : io (option Z) :=
  match init_reply zh with
  | Null errno => ret (Some errno)
  | Handle =>
      e <- zoo_exists zh path ;;
      let maxretry := 5 in
      let ts := ts_init in
      r <- ensure_loop (S maxretry) zh path ts maxretry e 0 ;;
      if (maxretry <=? snd r)%nat then
        fprintf_stderr ("Could not create %s" ++ nl)%string path ;;;
        exitnow
      else
        l <- lock_loop (S maxretry) zh path ts maxretry 0
               {| id := None; ownerid := None |} ;;
        let '(c, count, vars) := l in
        match c with
        | Undefined => ret None
        | Goto_exitnow => exitnow
        | Break | Continue =>
            if (maxretry <=? count)%nat then
              fprintf_stderr ("Too many retries while trying to lock %s" ++ nl)%string path ;;;
              exitnow
            else
              match id vars, ownerid vars with
              | Some i, Some o =>
                  if negb (strcmp i o =? 0)%Z then exitnow
                  else sleep 10 ;;; exitnow
              | _, _ => exitnow
              end
        end
  end.

(** ** Scripted servers used below *)

Definition node_aa0 : string := "x-00000000000000aa-0000000000".
Definition node_aa1 : string := "x-00000000000000aa-0000000001".
Definition node_bb0 : string := "x-00000000000000bb-0000000000".
Definition node_bb1 : string := "x-00000000000000bb-0000000001".
Definition node_bb2 : string := "x-00000000000000bb-0000000002".
Definition node_cc1 : string := "x-00000000000000cc-0000000001".
Definition node_cc2 : string := "x-00000000000000cc-0000000002".

(** A server with the lock directory in place whose replies are given by the
    two scripts; the session id is fixed. *)
Definition server (session : Z) (children : nat -> ZOO_ERRORS * list string)
    (create : nat -> ZOO_ERRORS * string) : zhandle_t :=
  {| init_reply := Handle;
     exists_reply := fun _ => ZOK;
     create_reply := create;
     children_reply := children;
     client_id_reply := fun _ => session |}.

(** Session [aa] finds the directory empty, registers as number 0 and is
    alone. *)
Definition zk_alone : zhandle_t :=
  server 170
    (fun n => match n with
              | 0 => (ZOK, [])
              | _ => (ZOK, [node_aa0])
              end)
    (fun _ => (ZOK, "/lock/" ++ node_aa0)%string).

(** As [zk_alone], but the first four rounds cannot enumerate the directory
    (an error that is not a connection loss); the fifth round goes through. *)
Definition zk_locked_in_last_round : zhandle_t :=
  server 170
    (fun n => match n with
              | 0 | 1 | 2 | 3 => (ZNOAUTH, [])
              | 4 => (ZOK, [])
              | _ => (ZOK, [node_aa0])
              end)
    (fun _ => (ZOK, "/lock/" ++ node_aa0)%string).

(** The connection is lost for the first check of the directory and for four
    retries; the fifth retry finds the directory. *)
Definition zk_directory_in_last_round : zhandle_t :=
  {| init_reply := Handle;
     exists_reply := fun n => if (n <? 5)%nat then ZCONNECTIONLOSS else ZOK;
     create_reply := fun _ => (ZOK, "/lock/" ++ node_aa0)%string;
     children_reply := fun n => match n with
                                | 0 => (ZOK, [])
                                | _ => (ZOK, [node_aa0])
                                end;
     client_id_reply := fun _ => 170%Z |}.

(** Three sessions registered in the order [aa], [bb], [cc]; the program runs
    in session [cc]. *)
Definition zk_third_in_line : zhandle_t :=
  server 204
    (fun _ => (ZOK, [node_cc2; node_aa0; node_bb1]))
    (fun _ => (ZSYSTEMERROR, EmptyString)).

(** Session [bb] registered first, session [aa] second; the program runs in
    session [aa]. *)
Definition zk_larger_session_first : zhandle_t :=
  server 170
    (fun _ => (ZOK, [node_aa1; node_bb0]))
    (fun _ => (ZSYSTEMERROR, EmptyString)).


(** Enumeration loses the connection twice, then is refused. *)
Definition zk_flaky_then_refused : zhandle_t :=
  server 170
    (fun n => match n with
              | 0 | 1 => (ZCONNECTIONLOSS, [])
              | _ => (ZNOAUTH, [])
              end)
    (fun _ => (ZSYSTEMERROR, EmptyString)).

(** As [zk_alone], but the store hands out a sequence suffix of 21
    characters, one more than [retbuf] has room for. *)
Definition node_aa_long : string := "x-00000000000000aa-000000000000000000001".

Definition zk_long_suffix : zhandle_t :=
  server 170
    (fun n => match n with
              | 0 => (ZOK, [])
              | _ => (ZOK, [node_aa_long])
              end)
    (fun _ => (ZOK, "/lock/" ++ node_aa_long)%string).

(** No handle: [zookeeper_init] fails with [ECONNREFUSED]. *)
Definition zk_no_handle : zhandle_t :=
  {| init_reply := Null 111;
     exists_reply := fun _ => ZOK;
     create_reply := fun _ => (ZOK, EmptyString);
     children_reply := fun _ => (ZOK, []);
     client_id_reply := fun _ => 0%Z |}.

(** ** Vocabulary of the statements *)

(** The lines [main] can print, and the marks of its outcomes in a trace. *)
Definition msg_blocked (last_child : string) : event :=
  Printf ("LOCKED: %s" ++ nl)%string last_child.
Definition msg_no_directory (path : string) : event :=
  Fprintf_stderr ("Could not create %s" ++ nl)%string path.
Definition msg_exhausted (path : string) : event :=
  Fprintf_stderr ("Too many retries while trying to lock %s" ++ nl)%string path.
Definition holds_lock : event := Sleep 10.

(** What [retbuf] (line 266) holds after the create of line 268 was
    answered with the path [created]: [retbuf] has [len + 20] bytes, one of
    them for the terminator. *)
Definition retbuf_after (path prefix created : string) : string :=
  String.substring 0 (strlen path + strlen prefix + 2 + 20 - 1) created.

(** The round that was running when the run reached the state [p'] resolved
    the name [i] for its own node and decided on the enumeration [vector].
    Read off the script of the server and the call counts of [p']: [vector]
    is the reply to the last enumeration call of the run, number [k]; that
    call was led up to by connection losses only, back to call [j], the first
    enumeration of the same round; [i] is what [lookupnode] finds in the
    reply to call [j] for the prefix of the session id read last, or, when
    it finds nothing, the name in what the last create of the run left in
    [retbuf]. *)
Definition decided_on (zh : zhandle_t) (path : string) (p' : process)
    (vector : list string) (i : string) : Prop :=
  exists j k n,
    S k = children_calls p' /\
    S n = client_id_calls p' /\
    j < k /\
    fst (children_reply zh j) = ZOK /\
    (forall m, j < m -> m < k -> fst (children_reply zh m) = ZCONNECTIONLOSS) /\
    children_reply zh k = (ZOK, vector) /\
    let prefix := session_prefix (client_id_reply zh n) in
    (lookupnode (snd (children_reply zh j)) prefix = Some i \/
     (lookupnode (snd (children_reply zh j)) prefix = None /\
      exists c,
        S c = create_calls p' /\
        fst (create_reply zh c) = ZOK /\
        getName (retbuf_after path prefix (snd (create_reply zh c))) = Some i)).

(** What a round that ends in [c] other than [continue] has decided, given
    the enumeration it sorted and its own name: a floor is printed last
    (line 293); or there is no floor and [ownerid] is the first sorted entry
    (line 297); or the vector is empty or cannot be sorted. *)
Definition round_decision (path : string) (c : control) (vars' : locals)
    (p' : process) (vector : list string) (i : string) : Prop :=
  match c with
  | Continue => False
  | Goto_exitnow =>
      exists sorted lessthanme tr,
        sort_children vector = Some sorted /\
        child_floor sorted i = Some lessthanme /\
        trace p' = tr ++ [msg_blocked (path ++ "/" ++ lessthanme)%string]
  | Break =>
      exists first rest,
        sort_children vector = Some (first :: rest) /\
        child_floor (first :: rest) i = None /\
        vars' = {| id := Some i; ownerid := Some first |}
  | Undefined =>
      sort_children vector = None \/ sort_children vector = Some []
  end.

(** [lessthanme] is the last entry of [sorted] that [strcmp] puts below [i]. *)
Definition last_below (sorted : list string) (i lessthanme : string) : Prop :=
  exists before after,
    sorted = before ++ lessthanme :: after /\
    (strcmp lessthanme i < 0)%Z /\
    Forall (fun d => (0 <= strcmp d i)%Z) after.

(** What is printed after ["LOCKED: "] according to the holder reading: the
    path of the first entry of a sorted enumeration. *)
Definition holder_path (zh : zhandle_t) (path last_child : string) : Prop :=
  exists k sorted holder,
    fst (children_reply zh k) = ZOK /\
    sort_children (snd (children_reply zh k)) = Some sorted /\
    hd_error sorted = Some holder /\
    last_child = (path ++ "/" ++ holder)%string.

(** The events of the two loops that say nothing about the outcome. *)
Definition quiet (ts : timespec) (e : event) : Prop :=
  match e with
  | Zoo_exists _ | Zoo_create _ _ | Zoo_get_children _ => True
  | Nanosleep t => t = ts
  | Fprintf_stderr f _ =>
      f = ("Could not enumerate folder %s" ++ nl)%string \/
      f = ("Could not create locking node %s" ++ nl)%string
  | Sleep _ | Printf _ _ | Zookeeper_close => False
  end.

(** [p'] is [p] after some more events, all of them in [Q]. *)
Definition emits (Q : event -> Prop) (p p' : process) : Prop :=
  exists evs, trace p' = trace p ++ evs /\ Forall Q evs.

(** [k] rounds of a failing enumeration: the state after them. *)
Definition after_losses (path : string) (ts : timespec) (k : nat) (p : process)
  : process :=
  {| exists_calls := exists_calls p;
     create_calls := create_calls p;
     children_calls := children_calls p + k;
     client_id_calls := client_id_calls p;
     trace := trace p ++ List.concat (repeat [Zoo_get_children path; Nanosleep ts] k) |}.

(** No character of [s] is the NUL. *)
Fixpoint cstring (s : string) : Prop :=
  match s with
  | EmptyString => True
  | String c s' => c <> Ascii.zero /\ cstring s'
  end.

(** How the trace grows over a round of the lock loop that ends in [c]:
    by quiet events, and, for [Goto_exitnow] alone, by the ["LOCKED: "] line
    after them. *)
Definition round_shape (zh : zhandle_t) (path : string) (ts : timespec)
    (c : control) (p p' : process) : Prop :=
  exists evs,
    Forall (quiet ts) evs /\
    match c with
    | Goto_exitnow =>
        exists last_child,
          trace p' = trace p ++ evs ++ [msg_blocked last_child]
    | _ => trace p' = trace p ++ evs
    end.

(** The traces of [main] once it has a handle: quiet events, then the mark of
    one outcome and the close, with exit status 0; or quiet events up to the
    point where the behaviour is undefined. *)
Definition main_shape (zh : zhandle_t) (path : string) (status : option Z)
    (tr : list event) : Prop :=
  exists evs,
    Forall (quiet ts_init) evs /\
    ((status = Some 0%Z /\ tr = evs ++ [msg_no_directory path; Zookeeper_close]) \/
     (status = Some 0%Z /\
      exists last_child,
        tr = evs ++ [msg_blocked last_child; Zookeeper_close]) \/
     (status = Some 0%Z /\ tr = evs ++ [msg_exhausted path; Zookeeper_close]) \/
     (status = Some 0%Z /\ tr = evs ++ [Zookeeper_close]) \/
     (status = Some 0%Z /\ tr = evs ++ [holds_lock; Zookeeper_close]) \/
     (status = None /\ tr = evs)).

(** [vstrcmp] puts [a] before [b], or level with it. *)
Definition vle (a b : string) : Prop :=
  exists c, vstrcmp a b = Some c /\ (c <= 0)%Z.

(** One of the four outcomes shows in the trace. *)
Definition outcome_reported (path : string) (tr : list event) : Prop :=
  In holds_lock tr \/
  (exists last_child, In (msg_blocked last_child) tr) \/
  In (msg_no_directory path) tr \/
  In (msg_exhausted path) tr.

(** The number of connection losses at the head of the enumeration script
    from call [first] on, [budget] at most. *)
Fixpoint leading_losses (zh : zhandle_t) (first budget : nat) : nat :=
  match budget with
  | O => 0
  | S b =>
      if rc_eqb (fst (children_reply zh first)) ZCONNECTIONLOSS
      then S (leading_losses zh (S first) b)
      else 0
  end.

(** [strcmp] puts [a] before [b], or level with it. *)
Definition strcmp_le (a b : string) : Prop := (strcmp a b <= 0)%Z.

(** [name] has a ['-'], so that [vstrcmp] can read its suffix. *)
Definition has_dash (name : string) : Prop := strrchr name "-" <> None.

(** What the decision of a round adds to the trace and how the run ends
    after it, given the sorted enumeration and the candidate name (lines
    286-317): the behaviour is undefined for an empty or unsortable vector;
    a floor is printed; with no floor the lock is held when [id] compares
    equal to [ownerid] and the run just closes otherwise. *)
Definition decision_ending (path : string) (sorted : option (list string))
    (own : string) : option (list event) :=
  match sorted with
  | Some (first :: rest) =>
      match child_floor (first :: rest) own with
      | Some lessthanme =>
          Some [msg_blocked (path ++ "/" ++ lessthanme)%string; Zookeeper_close]
      | None =>
          if (strcmp own first =? 0)%Z then Some [holds_lock; Zookeeper_close]
          else Some [Zookeeper_close]
      end
  | _ => None
  end.

(** No two entries of [vector] tie in the order of [vstrcmp]: the names are
    distinct and so are their sequence suffixes, as the store hands them
    out.  The order [qsort] leaves is then the only one there is
    ([ordered_permutation_unique]). *)
Definition distinct_suffixes (vector : list string) : Prop :=
  NoDup vector /\
  forall a b, In a vector -> In b vector -> vstrcmp a b = Some 0%Z -> a = b.

(** The runs of [main] once it has a handle, with what the round that ended
    the run went by: quiet events, then the mark of one outcome and the
    close, with exit status 0; or quiet events up to the point where the
    behaviour is undefined. *)
Definition main_outcome (zh : zhandle_t) (path : string) (status : option Z)
    (p' : process) : Prop :=
  exists evs,
    Forall (quiet ts_init) evs /\
    ((status = Some 0%Z /\
      trace p' = evs ++ [msg_no_directory path; Zookeeper_close]) \/
     (status = Some 0%Z /\
      exists vector i sorted lessthanme,
        decided_on zh path p' vector i /\
        sort_children vector = Some sorted /\
        child_floor sorted i = Some lessthanme /\
        trace p' = evs ++ [msg_blocked (path ++ "/" ++ lessthanme)%string;
                           Zookeeper_close]) \/
     (status = Some 0%Z /\
      trace p' = evs ++ [msg_exhausted path; Zookeeper_close]) \/
     (status = Some 0%Z /\ trace p' = evs ++ [Zookeeper_close]) \/
     (status = Some 0%Z /\
      (exists vector i first rest,
          decided_on zh path p' vector i /\
          sort_children vector = Some (first :: rest) /\
          child_floor (first :: rest) i = None /\
          strcmp i first = 0%Z) /\
      trace p' = evs ++ [holds_lock; Zookeeper_close]) \/
     (status = None /\
      (exists vector i,
          decided_on zh path p' vector i /\
          (sort_children vector = None \/ sort_children vector = Some [])) /\
      trace p' = evs)).

(** * Facts about the library functions *)

Lemma rc_eqb_eq (a b : ZOO_ERRORS) : rc_eqb a b = true <-> a = b.
Proof.
  split.
  - destruct a, b; simpl; intro H; try reflexivity; discriminate H.
  - intros ->. destruct b; reflexivity.
Qed.

Lemma rc_eqb_neq (a b : ZOO_ERRORS) : rc_eqb a b = false <-> a <> b.
Proof.
  split.
  - intros H E. apply rc_eqb_eq in E. congruence.
  - intro H. destruct (rc_eqb a b) eqn:E; [ | reflexivity ].
    apply rc_eqb_eq in E. contradiction.
Qed.

Lemma byte_inj (c d : ascii) : byte c = byte d -> c = d.
Proof.
  unfold byte. intro H. apply N2Z.inj in H.
  rewrite <- (ascii_N_embedding c), <- (ascii_N_embedding d). now rewrite H.
Qed.

Lemma byte_zero (c : ascii) : byte c = 0%Z -> c = Ascii.zero.
Proof. intro H. apply byte_inj. exact H. Qed.

Lemma strcmp_refl (a : string) : strcmp a a = 0%Z.
Proof.
  induction a as [ | c a IH ]; simpl; [ reflexivity | ].
  now rewrite Ascii.eqb_refl.
Qed.

(** With a NUL-free [prefix], [strncmp] over the length of [prefix] is 0
    exactly when [prefix] begins [child]. *)
Lemma strncmp_begins_with (prefix child : string) :
  cstring prefix ->
  ((strncmp prefix child (strlen prefix) =? 0)%Z = begins_with prefix child).
Proof.
  revert child. induction prefix as [ | c pre IH ]; intros child Hc.
  - reflexivity.
  - destruct Hc as [Hnz Hc]. destruct child as [ | d child ]; simpl.
    + apply Z.eqb_neq. intro H. apply Hnz, byte_zero. lia.
    + destruct (Ascii.eqb c d) eqn:E; simpl.
      * apply IH, Hc.
      * apply Z.eqb_neq. intro H. apply Ascii.eqb_neq in E. apply E, byte_inj. lia.
Qed.

Lemma strcmp_antisym (a : string) : forall b, strcmp b a = (- strcmp a b)%Z.
Proof.
  induction a as [ | c a IH ]; intros [ | d b ]; simpl; try lia.
  rewrite (Ascii.eqb_sym d c). destruct (Ascii.eqb c d); [ apply IH | lia ].
Qed.

Lemma byte_nonneg (c : ascii) : (0 <= byte c)%Z.
Proof. unfold byte. lia. Qed.

Lemma byte_neq (c d : ascii) : Ascii.eqb c d = false -> byte c <> byte d.
Proof. intros E H. apply byte_inj in H. apply Ascii.eqb_neq in E. contradiction. Qed.

(** On NUL-free strings [strcmp] is 0 only for equal strings... *)
Lemma strcmp_eq (a : string) :
  forall b, cstring a -> cstring b -> strcmp a b = 0%Z -> a = b.
Proof.
  induction a as [ | c a IH ]; intros [ | d b ] Ha Hb H; simpl in *.
  - reflexivity.
  - destruct Hb as [Hd _]. exfalso. apply Hd, byte_zero. lia.
  - destruct Ha as [Hc _]. exfalso. apply Hc, byte_zero. lia.
  - destruct (Ascii.eqb c d) eqn:E.
    + apply Ascii.eqb_eq in E. subst d. f_equal. apply IH; tauto.
    + apply byte_neq in E. lia.
Qed.

(** ... and its sign is a transitive order. *)
Lemma strcmp_lt_le_trans (a : string) :
  forall b c, cstring b ->
              (strcmp a b < 0)%Z -> (strcmp b c <= 0)%Z -> (strcmp a c < 0)%Z.
Proof.
  induction a as [ | x a IH ]; intros [ | d b ] [ | e c ] Hb H1 H2; simpl in *;
    try lia.
  - destruct (Ascii.eqb d e) eqn:E.
    + apply Ascii.eqb_eq in E. subst e. lia.
    + lia.
  - pose proof (byte_nonneg x). lia.
  - destruct Hb as [Hd _]. pose proof (byte_nonneg x). pose proof (byte_nonneg d).
    assert (byte d <> 0%Z) by (intro Z0; apply Hd, byte_zero, Z0).
    destruct (Ascii.eqb x d); lia.
  - destruct Hb as [Hd Hb].
    destruct (Ascii.eqb x d) eqn:E1.
    + apply Ascii.eqb_eq in E1. subst d.
      destruct (Ascii.eqb x e) eqn:E2.
      * now apply (IH b c).
      * apply byte_neq in E2. lia.
    + apply byte_neq in E1. destruct (Ascii.eqb d e) eqn:E2.
      * apply Ascii.eqb_eq in E2. subst e.
        destruct (Ascii.eqb x d) eqn:E3; [ | exact H1 ].
        apply Ascii.eqb_eq in E3. subst d. lia.
      * destruct (Ascii.eqb x e) eqn:E3.
        -- apply Ascii.eqb_eq in E3. subst e. lia.
        -- lia.
Qed.

(** * Facts about the ordering functions *)

Lemma vstrcmp_antisym (a b : string) (c : Z) :
  vstrcmp a b = Some c -> vstrcmp b a = Some (- c)%Z.
Proof.
  unfold vstrcmp. destruct (strrchr a "-"), (strrchr b "-"); try discriminate.
  intro H. injection H as <-. now rewrite strcmp_antisym.
Qed.

Lemma qsort_insert_Permutation (x : string) (sorted : list string) :
  forall r, qsort_insert x sorted = Some r -> Permutation (x :: sorted) r.
Proof.
  induction sorted as [ | y rest IH ]; intros r H; simpl in H.
  - injection H as <-. apply Permutation_refl.
  - destruct (vstrcmp x y) as [ c | ]; [ | discriminate ].
    destruct (c <=? 0)%Z.
    + injection H as <-. apply Permutation_refl.
    + destruct (qsort_insert x rest) as [ r' | ]; [ | discriminate ].
      injection H as <-. eapply Permutation_trans; [ apply perm_swap | ].
      apply perm_skip. now apply IH.
Qed.

(** [qsort] leaves a permutation of the vector... *)
Lemma sort_children_Permutation (vector : list string) :
  forall sorted, sort_children vector = Some sorted -> Permutation vector sorted.
Proof.
  induction vector as [ | x rest IH ]; intros sorted H; simpl in H.
  - injection H as <-. constructor.
  - destruct (sort_children rest) as [ s | ]; [ | discriminate ].
    eapply Permutation_trans; [ apply perm_skip, IH; reflexivity | ].
    now apply qsort_insert_Permutation.
Qed.

Lemma qsort_insert_ordered (x : string) (sorted : list string) :
  forall r, Sorted vle sorted -> qsort_insert x sorted = Some r ->
            Sorted vle r /\ (forall y, HdRel vle y sorted -> vle y x -> HdRel vle y r).
Proof.
  induction sorted as [ | y rest IH ]; intros r Hs H; simpl in H.
  - injection H as <-. split; [ repeat constructor | ].
    intros y _ Hy. now constructor.
  - destruct (vstrcmp x y) as [ c | ] eqn:V; [ | discriminate ].
    destruct (c <=? 0)%Z eqn:C.
    + injection H as <-. split.
      * constructor; [ exact Hs | ]. constructor. exists c. split; [ exact V | ].
        now apply Z.leb_le.
      * intros z _ Hz. now constructor.
    + destruct (qsort_insert x rest) as [ r' | ] eqn:Q; [ | discriminate ].
      injection H as <-. inversion Hs as [ | ? ? Hs' Hh ]; subst.
      destruct (IH r' Hs' eq_refl) as [Hr Hd]. split.
      * constructor; [ exact Hr | ]. apply Hd; [ exact Hh | ].
        exists (- c)%Z. split; [ now apply vstrcmp_antisym | ].
        apply Z.leb_gt in C. lia.
      * intros z Hz _. inversion Hz; subst. now constructor.
Qed.

(** ... ordered by the comparator. *)
Lemma sort_children_ordered (vector : list string) :
  forall sorted, sort_children vector = Some sorted -> Sorted vle sorted.
Proof.
  induction vector as [ | x rest IH ]; intros sorted H; simpl in H.
  - injection H as <-. constructor.
  - destruct (sort_children rest) as [ s | ]; [ | discriminate ].
    eapply qsort_insert_ordered; [ apply IH; reflexivity | exact H ].
Qed.

(** The sort goes through when every name has its ['-']. *)
Lemma sort_children_defined (vector : list string) :
  Forall (fun name => seq_suffix name <> None) vector ->
  exists sorted, sort_children vector = Some sorted.
Proof.
  assert (Ins : forall x l, seq_suffix x <> None ->
            Forall (fun name => seq_suffix name <> None) l ->
            exists r, qsort_insert x l = Some r).
  { intros x l Hx. induction l as [ | y l IH ]; intro Hl; simpl.
    - now eexists.
    - inversion Hl as [ | ? ? Hy Hl' ]; subst. unfold vstrcmp.
      unfold seq_suffix in Hx, Hy.
      destruct (strrchr x "-"); [ | contradiction ].
      destruct (strrchr y "-"); [ | contradiction ].
      match goal with |- context [if ?b then _ else _] => destruct b end;
        [ now eexists | ].
      destruct (IH Hl') as [r ->]. now eexists. }
  induction vector as [ | x rest IH ]; intro H; simpl.
  - now eexists.
  - inversion H as [ | ? ? Hx Hr ]; subst. destruct (IH Hr) as [s Hs].
    rewrite Hs. apply Ins; [ exact Hx | ].
    apply sort_children_Permutation in Hs.
    eapply Permutation_Forall; eassumption.
Qed.

Lemma child_floor_loop_spec (sorted : list string) (element : string) :
  forall acc,
    match child_floor_loop sorted element acc with
    | Some x =>
        last_below sorted element x \/
        (acc = Some x /\ Forall (fun d => (0 <= strcmp d element)%Z) sorted)
    | None => acc = None /\ Forall (fun d => (0 <= strcmp d element)%Z) sorted
    end.
Proof.
  induction sorted as [ | d rest IH ]; intro acc; simpl.
  - destruct acc; auto.
  - specialize (IH (if (strcmp d element <? 0)%Z then Some d else acc)).
    destruct (child_floor_loop rest element
                (if (strcmp d element <? 0)%Z then Some d else acc)) as [ x | ].
    + destruct IH as [ (b & a & E & L & F) | [E F] ].
      * left. exists (d :: b), a. subst rest. auto.
      * destruct (strcmp d element <? 0)%Z eqn:C.
        -- injection E as <-. left. exists [], rest. apply Z.ltb_lt in C. auto.
        -- right. split; [ exact E | ]. constructor; [ | exact F ].
           now apply Z.ltb_ge.
    + destruct IH as [E F]. destruct (strcmp d element <? 0)%Z eqn:C;
        [ discriminate | ].
      split; [ exact E | ]. constructor; [ | exact F ]. now apply Z.ltb_ge.
Qed.

(** [child_floor] gives the last entry that [strcmp] puts below [element]... *)
Lemma child_floor_Some (sorted : list string) (element x : string) :
  child_floor sorted element = Some x -> last_below sorted element x.
Proof.
  intro H. pose proof (child_floor_loop_spec sorted element None) as S.
  unfold child_floor in H. rewrite H in S.
  destruct S as [S | [S _]]; [ exact S | discriminate ].
Qed.

(** ... and NULL when [strcmp] puts no entry below it. *)
Lemma child_floor_None (sorted : list string) (element : string) :
  child_floor sorted element = None <->
  Forall (fun d => (0 <= strcmp d element)%Z) sorted.
Proof.
  pose proof (child_floor_loop_spec sorted element None) as S.
  unfold child_floor. split.
  - intro H. rewrite H in S. apply S.
  - intro F. destruct (child_floor_loop sorted element None) as [ x | ];
      [ | reflexivity ].
    destruct S as [ (b & a & E & L & _) | [S _] ]; [ | discriminate ].
    subst sorted. apply Forall_app in F. destruct F as [_ F].
    inversion F; subst. lia.
Qed.

(** Among NUL-free names there is a least one under [strcmp]. *)
Lemma strcmp_least (names : list string) :
  names <> [] -> Forall cstring names ->
  exists least,
    In least names /\ Forall (fun d => (0 <= strcmp d least)%Z) names.
Proof.
  induction names as [ | x rest IH ]; intros Hne Hc; [ contradiction | ].
  inversion Hc as [ | ? ? Hx Hrest ]; subst.
  destruct rest as [ | y rest ].
  - exists x. split; [ now left | ]. constructor; [ | constructor ].
    rewrite strcmp_refl. lia.
  - destruct (IH ltac:(discriminate) Hrest) as (m & Hin & Hm).
    destruct (Z.ltb_spec (strcmp x m) 0) as [L | G].
    + exists x. split; [ now left | ]. constructor.
      * rewrite strcmp_refl. lia.
      * rewrite Forall_forall in *. intros d Hd.
        specialize (Hm d Hd). rewrite (strcmp_antisym m d) in Hm.
        assert (strcmp x d < 0)%Z.
        { apply (strcmp_lt_le_trans x m d); [ now apply Hrest | exact L | lia ]. }
        rewrite (strcmp_antisym x d). lia.
    + exists m. split; [ now right | ]. constructor; assumption.
Qed.

(** What the code does keep of the single-winner property: among NUL-free
    names exactly one has no floor, the least name under [strcmp] on the
    whole name. *)
Lemma child_floor_single_winner (names : list string) :
  names <> [] -> Forall cstring names ->
  exists winner,
    In winner names /\
    child_floor names winner = None /\
    forall other, In other names -> child_floor names other = None ->
                  other = winner.
Proof.
  intros Hne Hc. destruct (strcmp_least names Hne Hc) as (m & Hin & Hm).
  exists m. split; [ exact Hin | ]. split; [ now apply child_floor_None | ].
  intros o Ho Hnone. apply child_floor_None in Hnone.
  rewrite Forall_forall in Hm, Hnone, Hc.
  pose proof (Hm o Ho) as H1. pose proof (Hnone m Hin) as H2.
  rewrite (strcmp_antisym o m) in H2.
  apply strcmp_eq; [ now apply Hc | now apply Hc | lia ].
Qed.

(** * Facts about the candidate lookup *)

Lemma cstring_app (a b : string) : cstring a -> cstring b -> cstring (a ++ b)%string.
Proof.
  induction a as [ | c a IH ]; simpl; [ auto | ].
  intros [Hc Ha] Hb. split; [ exact Hc | now apply IH ].
Qed.

Lemma cstring_substring (s : string) : forall n m, cstring s -> cstring (substring n m s).
Proof.
  induction s as [ | c s IH ]; intros n m H.
  - destruct n, m; exact I.
  - destruct H as [Hc Hs]. destruct n as [ | n ]; simpl.
    + destruct m as [ | m ]; [ exact I | ]. split; [ exact Hc | now apply IH ].
    + now apply IH.
Qed.

Lemma hex_digit_not_nul (d : Z) : hex_digit d <> Ascii.zero.
Proof.
  unfold hex_digit.
  repeat match goal with
         | |- context [match ?x with _ => _ end] => destruct x
         end; discriminate.
Qed.

Lemma cstring_lower_hex (width : nat) :
  forall v acc, cstring acc -> cstring (lower_hex width v acc).
Proof.
  induction width as [ | w IH ]; intros v acc H; simpl; [ exact H | ].
  apply IH. split; [ apply hex_digit_not_nul | exact H ].
Qed.

Lemma cstring_session_prefix (session : Z) : cstring (session_prefix session).
Proof.
  unfold session_prefix, snprintf. apply cstring_substring.
  apply (cstring_app "x-"); [ simpl; repeat split; discriminate | ].
  apply cstring_app; [ | simpl; repeat split; discriminate ].
  now apply cstring_lower_hex.
Qed.

(** [lookupnode] returns the first child that the prefix begins. *)
Lemma lookupnode_Some (prefix : string) (vector : list string) (child : string) :
  cstring prefix ->
  lookupnode vector prefix = Some child <->
  exists before after,
    vector = before ++ child :: after /\
    begins_with prefix child = true /\
    Forall (fun c => begins_with prefix c = false) before.
Proof.
  intro Hp. induction vector as [ | c rest IH ]; simpl.
  - split; [ discriminate | ]. intros ([ | ? ? ] & a & E & _); discriminate.
  - rewrite (strncmp_begins_with _ _ Hp). destruct (begins_with prefix c) eqn:B.
    + split.
      * intro H. injection H as <-. exists [], rest. auto.
      * intros ([ | c' b ] & a & E & Hb & F).
        -- now injection E as <- _.
        -- injection E as <- _. inversion F; congruence.
    + rewrite IH. split.
      * intros (b & a & E & Hb & F). exists (c :: b), a. subst rest. auto.
      * intros ([ | c' b ] & a & E & Hb & F).
        -- injection E as <- _. congruence.
        -- injection E as <- ->. inversion F; subst. now exists b, a.
Qed.

Lemma lookupnode_finds (prefix : string) (vector : list string) (name : string) :
  cstring prefix ->
  In name vector -> begins_with prefix name = true ->
  exists child, lookupnode vector prefix = Some child.
Proof.
  intros Hp Hin Hb. induction vector as [ | c rest IH ]; [ contradiction | ].
  simpl. rewrite (strncmp_begins_with _ _ Hp).
  destruct (begins_with prefix c) eqn:B; [ now eexists | ].
  destruct Hin as [ -> | Hin ]; [ congruence | now apply IH ].
Qed.

(** * The monad *)

Lemma bind_eq {A B : Type} (m : io A) (k : A -> io B) (p : process) :
  bind m k p = k (fst (m p)) (snd (m p)).
Proof. unfold bind. now destruct (m p). Qed.

Lemma ret_eq {A : Type} (a : A) (p : process) : ret a p = (a, p).
Proof. reflexivity. Qed.

(** * [retry_getchildren] *)

Section RetryGetChildren.

Variable zh : zhandle_t.
Variable path : string.
Variable ts : timespec.
Variable retry : nat.

Lemma after_losses_0 (p : process) : after_losses path ts 0 p = p.
Proof.
  destruct p as [e c g i t]. unfold after_losses; simpl.
  now rewrite Nat.add_0_r, app_nil_r.
Qed.

Lemma after_losses_S (k : nat) (p : process) :
  after_losses path ts k
    (snd (nanosleep ts (snd (zoo_get_children zh path p))))
  = after_losses path ts (S k) p.
Proof.
  unfold after_losses; simpl. f_equal; [ lia | ].
  now rewrite <- !app_assoc.
Qed.

(** One round of the loop. *)
Lemma retry_getchildren_loop_S (fuel : nat) (vector : list string)
    (r : ZOO_ERRORS) (count : nat) (p : process) :
  retry_getchildren_loop (S fuel) zh path vector ts retry r count p
  = if rc_eqb r ZCONNECTIONLOSS && (count <? retry) then
      let reply := children_reply zh (children_calls p) in
      let p1 := snd (zoo_get_children zh path p) in
      let vector' := if rc_eqb (fst reply) ZOK then snd reply else vector in
      if rc_eqb (fst reply) ZCONNECTIONLOSS then
        retry_getchildren_loop fuel zh path vector' ts retry (fst reply)
          (S count) (snd (nanosleep ts p1))
      else
        retry_getchildren_loop fuel zh path vector' ts retry (fst reply)
          count p1
    else ((r, vector), p).
Proof.
  cbn [retry_getchildren_loop].
  destruct (rc_eqb r ZCONNECTIONLOSS && (count <? retry)); [ | reflexivity ].
  rewrite bind_eq. cbn [zoo_get_children fst snd].
  destruct (rc_eqb (fst (children_reply zh (children_calls p))) ZCONNECTIONLOSS);
    [ | reflexivity ].
  rewrite bind_eq. reflexivity.
Qed.

(** The loop stops at once when [ret] is not a connection loss or the
    budget is used up. *)
Lemma retry_getchildren_loop_exit (fuel : nat) (vector : list string)
    (r : ZOO_ERRORS) (count : nat) (p : process) :
  r <> ZCONNECTIONLOSS \/ retry <= count ->
  retry_getchildren_loop fuel zh path vector ts retry r count p
  = ((r, vector), p).
Proof.
  intro H. destruct fuel as [ | fuel ]; [ reflexivity | ].
  rewrite retry_getchildren_loop_S.
  replace (rc_eqb r ZCONNECTIONLOSS && (count <? retry)) with false;
    [ reflexivity | ].
  symmetry. apply andb_false_iff. destruct H as [H | H].
  - left. now apply rc_eqb_neq.
  - right. apply Nat.ltb_ge. exact H.
Qed.

(** [k] connection losses in a row, then either another reply or the end of
    the budget. *)
Lemma retry_getchildren_loop_runs (k : nat) :
  forall (fuel count : nat) (vector : list string) (p : process),
    count + k <= retry ->
    k < fuel ->
    (forall j, j < k ->
       fst (children_reply zh (children_calls p + j)) = ZCONNECTIONLOSS) ->
    (count + k < retry ->
       fst (children_reply zh (children_calls p + k)) <> ZCONNECTIONLOSS) ->
    retry_getchildren_loop fuel zh path vector ts retry ZCONNECTIONLOSS count p
    = if count + k <? retry then
        let q := after_losses path ts k p in
        let r := children_reply zh (children_calls q) in
        ((fst r, if rc_eqb (fst r) ZOK then snd r else vector),
         snd (zoo_get_children zh path q))
      else ((ZCONNECTIONLOSS, vector), after_losses path ts k p).
Proof.
  induction k as [ | k IH ]; intros fuel count vector p Hb Hf Hl Hn.
  - rewrite after_losses_0 in *. rewrite !Nat.add_0_r in *.
    destruct fuel as [ | fuel ]; [ lia | ].
    destruct (count <? retry) eqn:E.
    + apply Nat.ltb_lt in E. specialize (Hn E).
      rewrite retry_getchildren_loop_S.
      replace (count <? retry) with true by (symmetry; now apply Nat.ltb_lt).
      cbn [rc_eqb andb]. cbv zeta.
      pose proof Hn as Hn'. apply rc_eqb_neq in Hn'. rewrite Hn'.
      apply retry_getchildren_loop_exit. now left.
    + apply retry_getchildren_loop_exit. right. now apply Nat.ltb_ge.
  - destruct fuel as [ | fuel ]; [ lia | ].
    rewrite retry_getchildren_loop_S.
    replace (count <? retry) with true by (symmetry; apply Nat.ltb_lt; lia).
    cbn [rc_eqb andb]. cbv zeta.
    pose proof (Hl 0 ltac:(lia)) as H0. rewrite Nat.add_0_r in H0.
    rewrite H0. cbn [rc_eqb].
    rewrite (IH fuel (S count) vector); try lia.
    + rewrite after_losses_S.
      replace (S count + k) with (count + S k) by lia. reflexivity.
    + intros j Hj. cbn [nanosleep emit zoo_get_children snd children_calls].
      specialize (Hl (S j) ltac:(lia)).
      now replace (S (children_calls p) + j) with (children_calls p + S j) by lia.
    + intro H. cbn [nanosleep emit zoo_get_children snd children_calls].
      replace (S (children_calls p) + k) with (children_calls p + S k) by lia.
      apply Hn. lia.
Qed.

Lemma leading_losses_spec (budget : nat) :
  forall first,
    let k := leading_losses zh first budget in
    k <= budget /\
    (forall j, j < k ->
       fst (children_reply zh (first + j)) = ZCONNECTIONLOSS) /\
    (k < budget ->
       fst (children_reply zh (first + k)) <> ZCONNECTIONLOSS).
Proof.
  induction budget as [ | b IH ]; intro first; cbn [leading_losses].
  - repeat split; lia.
  - destruct (rc_eqb (fst (children_reply zh first)) ZCONNECTIONLOSS) eqn:E.
    + destruct (IH (S first)) as (Hle & Hl & Hn). cbv zeta. repeat split.
      * lia.
      * intros [ | j ] Hj.
        -- rewrite Nat.add_0_r. now apply rc_eqb_eq.
        -- replace (first + S j) with (S first + j) by lia. apply Hl. lia.
      * intro H.
        replace (first + S (leading_losses zh (S first) b))
          with (S first + leading_losses zh (S first) b) by lia.
        apply Hn. lia.
    + cbv zeta. repeat split; try lia.
      intros _. rewrite Nat.add_0_r. now apply rc_eqb_neq.
Qed.

(** Every call of [retry_getchildren] is such a run. *)
Lemma retry_getchildren_runs (vector : list string) (p : process) :
  exists k,
    k <= retry /\
    (forall j, j < k ->
       fst (children_reply zh (children_calls p + j)) = ZCONNECTIONLOSS) /\
    (k < retry ->
       fst (children_reply zh (children_calls p + k)) <> ZCONNECTIONLOSS) /\
    retry_getchildren zh path vector ts retry p
    = if k <? retry then
        let q := after_losses path ts k p in
        let r := children_reply zh (children_calls q) in
        ((fst r, if rc_eqb (fst r) ZOK then snd r else vector),
         snd (zoo_get_children zh path q))
      else ((ZCONNECTIONLOSS, vector), after_losses path ts k p).
Proof.
  exists (leading_losses zh (children_calls p) retry).
  destruct (leading_losses_spec retry (children_calls p)) as (Hle & Hl & Hn).
  repeat split; try assumption.
  unfold retry_getchildren.
  now rewrite (retry_getchildren_loop_runs
                 (leading_losses zh (children_calls p) retry)) by (auto; lia).
Qed.

Lemma quiet_losses (k : nat) :
  Forall (quiet ts)
    (List.concat (repeat [Zoo_get_children path; Nanosleep ts] k)).
Proof.
  induction k as [ | k IH ]; simpl.
  - constructor.
  - constructor; [ exact I | ]. constructor; [ reflexivity | exact IH ].
Qed.

(** What a call leaves alone, and where a vector it returns comes from. *)
Lemma retry_getchildren_frame (vector : list string) (p p' : process)
    (r : ZOO_ERRORS * list string) :
  retry_getchildren zh path vector ts retry p = (r, p') ->
  exists_calls p' = exists_calls p /\
  create_calls p' = create_calls p /\
  client_id_calls p' = client_id_calls p /\
  emits (quiet ts) p p' /\
  (fst r = ZOK ->
   exists k, fst (children_reply zh k) = ZOK /\ snd r = snd (children_reply zh k)).
Proof.
  destruct (retry_getchildren_runs vector p) as (k & Hle & Hl & Hn & E).
  rewrite E. clear E. destruct (k <? retry) eqn:Hk; cbv zeta;
    intro H; injection H as <- <-; cbn [fst snd zoo_get_children after_losses
      exists_calls create_calls client_id_calls children_calls trace].
  - repeat split.
    + exists (List.concat (repeat [Zoo_get_children path; Nanosleep ts] k)
              ++ [Zoo_get_children path]).
      split; [ now rewrite app_assoc | ].
      apply Forall_app. split; [ apply quiet_losses | ].
      constructor; [ exact I | constructor ].
    + intro Hok. exists (children_calls p + k). split; [ exact Hok | ].
      apply rc_eqb_eq in Hok. now rewrite Hok.
  - repeat split.
    + exists (List.concat (repeat [Zoo_get_children path; Nanosleep ts] k)).
      split; [ reflexivity | apply quiet_losses ].
    + discriminate.
Qed.

End RetryGetChildren.

(** * Traces *)

Section Emits.

Variable Q : event -> Prop.

Lemma emits_refl (p : process) : emits Q p p.
Proof. exists []. split; [ now rewrite app_nil_r | constructor ]. Qed.

Lemma emits_trans (p q r : process) : emits Q p q -> emits Q q r -> emits Q p r.
Proof.
  intros (e1 & H1 & F1) (e2 & H2 & F2). exists (e1 ++ e2). split.
  - now rewrite H2, H1, app_assoc.
  - apply Forall_app. now split.
Qed.

Lemma emits_emit (e : event) (p : process) : Q e -> emits Q p (snd (emit e p)).
Proof.
  intro H. exists [e]. split; [ reflexivity | ].
  constructor; [ exact H | constructor ].
Qed.

End Emits.

Lemma emits_nanosleep (ts : timespec) (p : process) :
  emits (quiet ts) p (snd (nanosleep ts p)).
Proof. apply emits_emit. reflexivity. Qed.

Lemma emits_zoo_exists (zh : zhandle_t) (ts : timespec) (path : string) (p : process) :
  emits (quiet ts) p (snd (zoo_exists zh path p)).
Proof. exists [Zoo_exists path]. split; [ reflexivity | ]. now repeat constructor. Qed.

Lemma emits_zoo_create (zh : zhandle_t) (ts : timespec) (path : string)
    (flags : Z) (path_buffer_len : nat) (p : process) :
  emits (quiet ts) p (snd (zoo_create zh path flags path_buffer_len p)).
Proof. exists [Zoo_create path flags]. split; [ reflexivity | ]. now repeat constructor. Qed.

Lemma emits_zoo_client_id (zh : zhandle_t) (ts : timespec) (p : process) :
  emits (quiet ts) p (snd (zoo_client_id zh p)).
Proof. exists []. split; [ simpl; now rewrite app_nil_r | constructor ]. Qed.

(** * The directory loop *)

Section Ensure.

Variable zh : zhandle_t.
Variable path : string.
Variable ts : timespec.
Variable maxretry : nat.

Lemma ensure_loop_S (fuel : nat) (e : ZOO_ERRORS) (count : nat) (p : process) :
  ensure_loop (S fuel) zh path ts maxretry e count p
  = if (rc_eqb e ZCONNECTIONLOSS || rc_eqb e ZNONODE) && (count <? maxretry)
    then
      let p1 := snd (nanosleep ts p) in
      if rc_eqb e ZCONNECTIONLOSS then
        ensure_loop fuel zh path ts maxretry (exists_reply zh (exists_calls p1))
          (S count) (snd (zoo_exists zh path p1))
      else if rc_eqb e ZNONODE then
        ensure_loop fuel zh path ts maxretry
          (fst (create_reply zh (create_calls p1)))
          (S count) (snd (zoo_create zh path 0 0 p1))
      else ensure_loop fuel zh path ts maxretry e (S count) p1
    else ((e, count), p).
Proof.
  cbn [ensure_loop].
  destruct ((rc_eqb e ZCONNECTIONLOSS || rc_eqb e ZNONODE) && (count <? maxretry));
    [ | reflexivity ].
  rewrite bind_eq. cbv zeta.
  destruct (rc_eqb e ZCONNECTIONLOSS); [ now rewrite bind_eq | ].
  destruct (rc_eqb e ZNONODE); [ now rewrite bind_eq | reflexivity ].
Qed.

(** The loop only makes quiet events, and [count] never goes down. *)
Lemma ensure_loop_quiet (fuel : nat) :
  forall (e : ZOO_ERRORS) (count : nat) (p p' : process) (r : ZOO_ERRORS * nat),
    ensure_loop fuel zh path ts maxretry e count p = (r, p') ->
    emits (quiet ts) p p' /\ count <= snd r.
Proof.
  induction fuel as [ | fuel IH ]; intros e count p p' r H.
  - injection H as <- <-. split; [ apply emits_refl | simpl; lia ].
  - rewrite ensure_loop_S in H.
    destruct ((rc_eqb e ZCONNECTIONLOSS || rc_eqb e ZNONODE) && (count <? maxretry)).
    + cbv zeta in H.
      destruct (rc_eqb e ZCONNECTIONLOSS);
        [ | destruct (rc_eqb e ZNONODE) ];
        apply IH in H; destruct H as [He Hc]; (split; [ | lia ]);
        (eapply emits_trans; [ apply emits_nanosleep | ]).
      * eapply emits_trans; [ apply emits_zoo_exists | exact He ].
      * eapply emits_trans; [ apply emits_zoo_create | exact He ].
      * exact He.
    + injection H as <- <-. split; [ apply emits_refl | simpl; lia ].
Qed.

(** With [maxretry + 1] units of fuel the loop ends by its own test. *)
Lemma ensure_loop_fuel (fuel : nat) :
  forall (e : ZOO_ERRORS) (count : nat) (p p' : process) (r : ZOO_ERRORS * nat),
    maxretry < fuel + count ->
    ensure_loop fuel zh path ts maxretry e count p = (r, p') ->
    (fst r <> ZCONNECTIONLOSS /\ fst r <> ZNONODE) \/ maxretry <= snd r.
Proof.
  induction fuel as [ | fuel IH ]; intros e count p p' r Hf H.
  - injection H as <- <-. right. simpl. lia.
  - rewrite ensure_loop_S in H.
    destruct ((rc_eqb e ZCONNECTIONLOSS || rc_eqb e ZNONODE) && (count <? maxretry))
      eqn:C.
    + cbv zeta in H.
      destruct (rc_eqb e ZCONNECTIONLOSS);
        [ | destruct (rc_eqb e ZNONODE) ]; apply IH in H; auto; lia.
    + injection H as <- <-. simpl. apply andb_false_iff in C.
      destruct C as [C | C].
      * left. apply orb_false_iff in C. destruct C as [C1 C2].
        split; now apply rc_eqb_neq.
      * right. now apply Nat.ltb_ge.
Qed.

End Ensure.

(** * One round of the lock loop *)

Section Round.

Variable zh : zhandle_t.
Variable path : string.
Variable ts : timespec.
Variable maxretry : nat.

Lemma round_shape_quiet (c : control) (p p' : process) :
  c <> Goto_exitnow -> emits (quiet ts) p p' -> round_shape zh path ts c p p'.
Proof.
  intros Hc (evs & Ht & Hq). exists evs. split; [ exact Hq | ].
  destruct c; try exact Ht. contradiction.
Qed.

Lemma round_shape_after (c : control) (p q p' : process) :
  emits (quiet ts) p q -> round_shape zh path ts c q p' ->
  round_shape zh path ts c p p'.
Proof.
  intros (e1 & H1 & F1) (e2 & F2 & H2). exists (e1 ++ e2). split.
  - apply Forall_app. now split.
  - destruct c; try (now rewrite H2, H1, app_assoc).
    destruct H2 as (x & H2). exists x.
    now rewrite H2, H1, <- !app_assoc.
Qed.

Lemma resolve_candidate_found (prefix i : string) (vector : list string)
    (p : process) :
  lookupnode vector prefix = Some i ->
  resolve_candidate zh path prefix vector p = (Some (Some i), p).
Proof. intro H. unfold resolve_candidate. now rewrite H. Qed.

Lemma resolve_candidate_absent (prefix : string) (vector : list string)
    (p : process) :
  lookupnode vector prefix = None ->
  resolve_candidate zh path prefix vector p
  = let buf := snprintf (strlen path + strlen prefix + 2)
                 (path ++ "/" ++ prefix)%string in
    let p1 := snd (zoo_create zh buf (Z.lor ZOO_EPHEMERAL ZOO_SEQUENCE)
                     (strlen path + strlen prefix + 2 + 20) p) in
    let r := create_reply zh (create_calls p) in
    if negb (rc_eqb (fst r) ZOK) then
      (None,
       snd (fprintf_stderr ("Could not create locking node %s" ++ nl)%string
              buf p1))
    else (Some (getName (retbuf_after path prefix (snd r))), p1).
Proof.
  intro H. unfold resolve_candidate. rewrite H. cbv zeta. rewrite bind_eq.
  cbn [zoo_create fst snd].
  destruct (negb (rc_eqb (fst (create_reply zh (create_calls p))) ZOK));
    [ now rewrite bind_eq | reflexivity ].
Qed.

(** The candidate step makes at most one create. *)
Lemma resolve_candidate_frame (prefix : string) (vector : list string)
    (p p' : process) (c : option (option string)) :
  resolve_candidate zh path prefix vector p = (c, p') ->
  emits (quiet ts) p p' /\
  create_calls p <= create_calls p' <= S (create_calls p).
Proof.
  intro H.
  destruct (lookupnode vector prefix) as [ i | ] eqn:L.
  - rewrite (resolve_candidate_found _ _ _ _ L) in H. injection H as <- <-.
    split; [ apply emits_refl | lia ].
  - rewrite (resolve_candidate_absent _ _ _ L) in H. cbv zeta in H.
    destruct (rc_eqb (fst (create_reply zh (create_calls p))) ZOK) eqn:E;
      cbn [negb] in H; injection H as <- <-.
    + split; [ eexists [_]; split; [ reflexivity | repeat constructor ]
             | simpl; lia ].
    + split; [ | simpl; lia ].
      eexists [_; _]. split; [ simpl; now rewrite <- app_assoc | ].
      constructor; [ exact I | ]. constructor; [ now right | constructor ].
Qed.

(** A name from the candidate step is one [lookupnode] found, with the state
    untouched, or the name in [retbuf] after one successful create. *)
Lemma resolve_candidate_Some (prefix i : string) (vector : list string)
    (p p' : process) :
  resolve_candidate zh path prefix vector p = (Some (Some i), p') ->
  (lookupnode vector prefix = Some i /\ p' = p) \/
  (lookupnode vector prefix = None /\
   fst (create_reply zh (create_calls p)) = ZOK /\
   getName (retbuf_after path prefix (snd (create_reply zh (create_calls p))))
   = Some i /\
   create_calls p' = S (create_calls p) /\
   children_calls p' = children_calls p /\
   client_id_calls p' = client_id_calls p).
Proof.
  intro H.
  destruct (lookupnode vector prefix) as [ f | ] eqn:L.
  - rewrite (resolve_candidate_found _ _ _ _ L) in H. injection H as <- <-.
    left. now split.
  - rewrite (resolve_candidate_absent _ _ _ L) in H. cbv zeta in H.
    destruct (rc_eqb (fst (create_reply zh (create_calls p))) ZOK) eqn:E;
      cbn [negb] in H; [ | discriminate H ].
    injection H as Hi <-. right. apply rc_eqb_eq in E.
    repeat split; [ exact E | exact Hi ].
Qed.

Lemma decide_eq (i : string) (vars : locals) (p : process) :
  decide zh path ts maxretry i vars p
  = let r := fst (retry_getchildren zh path [] ts maxretry p) in
    let p1 := snd (retry_getchildren zh path [] ts maxretry p) in
    if negb (rc_eqb (fst r) ZOK) then
      ((Continue, {| id := Some i; ownerid := ownerid vars |}),
       snd (fprintf_stderr ("Could not enumerate folder %s" ++ nl)%string path p1))
    else
      match sort_children (snd r) with
      | None => ((Undefined, {| id := Some i; ownerid := ownerid vars |}), p1)
      | Some [] => ((Undefined, {| id := Some i; ownerid := ownerid vars |}), p1)
      | Some (first :: rest) =>
          match child_floor (first :: rest) i with
          | Some lessthanme =>
              ((Goto_exitnow, {| id := Some i; ownerid := Some (strdup first) |}),
               snd (emit (msg_blocked (path ++ "/" ++ lessthanme)%string) p1))
          | None =>
              ((Break, {| id := Some i; ownerid := Some (strdup first) |}), p1)
          end
      end.
Proof.
  unfold decide. rewrite bind_eq. cbv zeta.
  destruct (negb (rc_eqb (fst (fst (retry_getchildren zh path [] ts maxretry p))) ZOK));
    [ now rewrite bind_eq | ].
  destruct (sort_children (snd (fst (retry_getchildren zh path [] ts maxretry p))))
    as [ [ | first rest ] | ]; try reflexivity.
  destruct (child_floor (first :: rest) i); [ now rewrite bind_eq | reflexivity ].
Qed.

(** The decision step: no create, and the shape of its trace. *)
Lemma decide_shape (i : string) (vars vars' : locals) (p p' : process)
    (c : control) :
  decide zh path ts maxretry i vars p = ((c, vars'), p') ->
  round_shape zh path ts c p p' /\ create_calls p' = create_calls p.
Proof.
  intro H. rewrite decide_eq in H. cbv zeta in H.
  destruct (retry_getchildren zh path [] ts maxretry p) as [r p1] eqn:R.
  apply retry_getchildren_frame in R. destruct R as (_ & Hc & _ & He & Hv).
  cbn [fst snd] in H.
  destruct (rc_eqb (fst r) ZOK) eqn:E; cbn [negb] in H.
  - apply rc_eqb_eq in E. destruct (Hv E) as (k & Hk & Hs).
    destruct (sort_children (snd r)) as [ [ | first rest ] | ] eqn:S.
    + injection H as <- <- <-. split; [ | exact Hc ].
      now apply round_shape_quiet.
    + destruct (child_floor (first :: rest) i) as [ l | ] eqn:F.
      * injection H as <- <- <-. split; [ | exact Hc ].
        destruct He as (evs & Ht & Hq). exists evs. split; [ exact Hq | ].
        exists (path ++ "/" ++ l)%string.
        cbn [emit snd trace]. now rewrite Ht, <- app_assoc.
      * injection H as <- <- <-. split; [ | exact Hc ].
        now apply round_shape_quiet.
    + injection H as <- <- <-. split; [ | exact Hc ].
      now apply round_shape_quiet.
  - injection H as <- <- <-. split; [ | exact Hc ].
    apply round_shape_quiet; [ discriminate | ].
    eapply emits_trans; [ exact He | ]. apply emits_emit. now left.
Qed.

Lemma lock_attempt_eq (vars : locals) (p : process) :
  lock_attempt zh path ts maxretry vars p
  = let prefix := session_prefix (client_id_reply zh (client_id_calls p)) in
    let p0 := snd (zoo_client_id zh p) in
    let r := fst (retry_getchildren zh path [] ts maxretry p0) in
    let p1 := snd (retry_getchildren zh path [] ts maxretry p0) in
    if negb (rc_eqb (fst r) ZOK) then
      ((Continue, vars),
       snd (fprintf_stderr ("Could not enumerate folder %s" ++ nl)%string path p1))
    else
      let p2 := snd (resolve_candidate zh path prefix (snd r) p1) in
      match fst (resolve_candidate zh path prefix (snd r) p1) with
      | Some (Some i) => decide zh path ts maxretry i vars p2
      | _ => ((Continue, {| id := None; ownerid := ownerid vars |}), p2)
      end.
Proof.
  unfold lock_attempt. rewrite bind_eq. cbn [zoo_client_id fst snd].
  rewrite bind_eq. cbv zeta.
  match goal with |- (if ?b then _ else _) _ = _ => destruct b end;
    [ now rewrite bind_eq | ].
  rewrite bind_eq.
  match goal with |- match ?c with _ => _ end _ = _ => destruct c as [ [ i | ] | ] end;
    reflexivity.
Qed.

(** A round makes at most one create, and its trace has the shape of a
    round. *)
Lemma lock_attempt_shape (vars vars' : locals) (p p' : process) (c : control) :
  lock_attempt zh path ts maxretry vars p = ((c, vars'), p') ->
  round_shape zh path ts c p p' /\
  create_calls p <= create_calls p' <= S (create_calls p).
Proof.
  intro H. rewrite lock_attempt_eq in H. cbv zeta in H.
  destruct (retry_getchildren zh path [] ts maxretry (snd (zoo_client_id zh p)))
    as [r p1] eqn:R.
  apply retry_getchildren_frame in R. destruct R as (_ & Hc & _ & He & Hv).
  cbn [fst snd] in H. cbn [zoo_client_id snd create_calls] in Hc.
  assert (He0 : emits (quiet ts) p p1).
  { eapply emits_trans; [ apply (emits_zoo_client_id zh) | exact He ]. }
  destruct (rc_eqb (fst r) ZOK) eqn:E; cbn [negb] in H.
  - apply rc_eqb_eq in E. specialize (Hv E).
    destruct (resolve_candidate zh path
                (session_prefix (client_id_reply zh (client_id_calls p)))
                (snd r) p1) as [cand p2] eqn:C.
    apply resolve_candidate_frame in C.
    destruct C as (Hq & Hcc). cbn [fst snd] in H.
    destruct cand as [ [ i | ] | ].
    + apply decide_shape in H.
      destruct H as [Hs Hd]. split; [ | lia ].
      eapply round_shape_after; [ | exact Hs ].
      eapply emits_trans; eassumption.
    + injection H as <- <- <-. split; [ | lia ].
      apply round_shape_quiet; [ discriminate | ].
      eapply emits_trans; eassumption.
    + injection H as <- <- <-. split; [ | lia ].
      apply round_shape_quiet; [ discriminate | ].
      eapply emits_trans; eassumption.
  - injection H as <- <- <-. split; [ | simpl; lia ].
    apply round_shape_quiet; [ discriminate | ].
    eapply emits_trans; [ exact He0 | ]. apply emits_emit. now left.
Qed.

Lemma lock_loop_S (fuel count : nat) (vars : locals) (p : process) :
  lock_loop (S fuel) zh path ts maxretry count vars p
  = if count <? maxretry then
      let r := lock_attempt zh path ts maxretry vars (snd (nanosleep ts p)) in
      match fst (fst r) with
      | Continue =>
          lock_loop fuel zh path ts maxretry (S count) (snd (fst r)) (snd r)
      | c => ((c, S count, snd (fst r)), snd r)
      end
    else ((Continue, count, vars), p).
Proof.
  cbn [lock_loop]. destruct (count <? maxretry); [ | reflexivity ].
  rewrite !bind_eq. cbv zeta.
  destruct (fst (fst (lock_attempt zh path ts maxretry vars
                        (snd (nanosleep ts p))))); reflexivity.
Qed.

(** With [maxretry + 1] units of fuel the loop is left by [break], by
    [goto], or by its own test. *)
Lemma lock_loop_fuel (fuel : nat) :
  forall (count count' : nat) (vars vars' : locals) (p p' : process),
    maxretry < fuel + count ->
    lock_loop fuel zh path ts maxretry count vars p
    = ((Continue, count', vars'), p') ->
    maxretry <= count'.
Proof.
  induction fuel as [ | fuel IH ]; intros count count' vars vars' p p' Hf H.
  - injection H as <- <- <-. lia.
  - rewrite lock_loop_S in H. destruct (count <? maxretry) eqn:C.
    + cbv zeta in H.
      destruct (fst (fst (lock_attempt zh path ts maxretry vars
                            (snd (nanosleep ts p))))); try discriminate H.
      apply IH in H; lia.
    + injection H as <- <- <-. now apply Nat.ltb_ge.
Qed.

(** The trace of the whole loop has the shape of a round. *)
Lemma lock_loop_shape (fuel : nat) :
  forall (count count' : nat) (vars vars' : locals) (p p' : process) (c : control),
    lock_loop fuel zh path ts maxretry count vars p = ((c, count', vars'), p') ->
    round_shape zh path ts c p p'.
Proof.
  induction fuel as [ | fuel IH ]; intros count count' vars vars' p p' c H.
  - injection H as <- <- <- <-.
    apply round_shape_quiet; [ discriminate | apply emits_refl ].
  - rewrite lock_loop_S in H. destruct (count <? maxretry).
    + cbv zeta in H.
      destruct (lock_attempt zh path ts maxretry vars (snd (nanosleep ts p)))
        as [[c1 v1] p1] eqn:A.
      apply lock_attempt_shape in A. destruct A as [A _]. cbn [fst snd] in H.
      apply (round_shape_after _ p (snd (nanosleep ts p)));
        [ apply emits_nanosleep | ].
      destruct c1.
      * apply IH in H. destruct A as (evs & Hq & Ht).
        eapply round_shape_after; [ exists evs; split; eassumption | exact H ].
      * injection H as <- <- <- <-. exact A.
      * injection H as <- <- <- <-. exact A.
      * injection H as <- <- <- <-. exact A.
    + injection H as <- <- <- <-.
      apply round_shape_quiet; [ discriminate | apply emits_refl ].
Qed.

End Round.

(** * [main] *)

Section Main.

Variable zh : zhandle_t.
Variable path : string.

Lemma main_null (errno : Z) (p : process) :
  init_reply zh = Null errno -> main zh path p = (Some errno, p).
Proof. intro H. unfold main. now rewrite H. Qed.

(** [main] with a handle, laid out along its branches. *)
Lemma main_handle (p : process) :
  init_reply zh = Handle ->
  main zh path p
  = let d := ensure_loop 6 zh path ts_init 5
               (exists_reply zh (exists_calls p)) 0
               (snd (zoo_exists zh path p)) in
    if 5 <=? snd (fst d) then
      (Some 0%Z, snd (zookeeper_close (snd (emit (msg_no_directory path) (snd d)))))
    else
      let l := lock_loop 6 zh path ts_init 5 0
                 {| id := None; ownerid := None |} (snd d) in
      let count := snd (fst (fst l)) in
      let vars := snd (fst l) in
      let after_loop :=
        if 5 <=? count then
          (Some 0%Z,
           snd (zookeeper_close (snd (emit (msg_exhausted path) (snd l)))))
        else
          match id vars, ownerid vars with
          | Some i, Some o =>
              if negb (strcmp i o =? 0)%Z
              then (Some 0%Z, snd (zookeeper_close (snd l)))
              else (Some 0%Z, snd (zookeeper_close (snd (emit holds_lock (snd l)))))
          | _, _ => (Some 0%Z, snd (zookeeper_close (snd l)))
          end in
      match fst (fst (fst l)) with
      | Undefined => (None, snd l)
      | Goto_exitnow => (Some 0%Z, snd (zookeeper_close (snd l)))
      | Break | Continue => after_loop
      end.
Proof.
  intro H. unfold main. rewrite H. rewrite bind_eq. cbn [zoo_exists fst snd].
  cbv zeta. rewrite bind_eq.
  match goal with |- context [ensure_loop ?f ?a ?b ?c ?d ?e ?g ?q] =>
    destruct (ensure_loop f a b c d e g q) as [[e1 n1] p1] end.
  cbn [fst snd]. destruct (5 <=? n1).
  - unfold exitnow. now rewrite !bind_eq.
  - rewrite bind_eq.
    destruct (lock_loop 6 zh path ts_init 5 0 {| id := None; ownerid := None |} p1)
      as [[[c n2] v2] p2].
    cbn [fst snd]. unfold exitnow.
    destruct c; try reflexivity; try (now rewrite !bind_eq);
      (destruct (5 <=? n2); [ now rewrite !bind_eq | ];
       destruct (id v2) as [ i | ]; [ | now rewrite !bind_eq ];
       destruct (ownerid v2) as [ o | ]; [ | now rewrite !bind_eq ];
       destruct (negb (strcmp i o =? 0)%Z); now rewrite !bind_eq).
Qed.

(** Every run with a handle has one of the six shapes. *)
Lemma main_spec (status : option Z) (p' : process) :
  init_reply zh = Handle ->
  main zh path start = (status, p') ->
  main_shape zh path status (trace p').
Proof.
  intros Hi H. rewrite (main_handle _ Hi) in H. cbv zeta in H.
  match type of H with context [ensure_loop ?f ?a ?b ?c ?d ?e ?g ?q] =>
    destruct (ensure_loop f a b c d e g q) as [[e1 n1] p1] eqn:D end.
  apply ensure_loop_quiet in D. destruct D as [D _].
  assert (D0 : emits (quiet ts_init) start p1).
  { eapply emits_trans; [ apply (emits_zoo_exists zh) | exact D ]. }
  clear D. destruct D0 as (ev1 & Ht1 & Hq1). cbn [fst snd] in H.
  change (trace start) with (@nil event) in Ht1. cbn [app] in Ht1.
  destruct (5 <=? n1).
  - injection H as <- <-. exists ev1. split; [ exact Hq1 | ]. left.
    split; [ reflexivity | ]. simpl. now rewrite Ht1, <- app_assoc.
  - destruct (lock_loop 6 zh path ts_init 5 0 {| id := None; ownerid := None |} p1)
      as [[[c n2] v2] p2] eqn:L.
    apply lock_loop_shape in L. destruct L as (ev2 & Hq2 & Ht2).
    cbn [fst snd] in H.
    assert (Hq : Forall (quiet ts_init) (ev1 ++ ev2)) by (apply Forall_app; now split).
    assert (After :
      c <> Goto_exitnow -> c <> Undefined ->
      (if 5 <=? n2
       then (Some 0%Z, snd (zookeeper_close (snd (emit (msg_exhausted path) p2))))
       else match id v2, ownerid v2 with
            | Some i, Some o =>
                if negb (strcmp i o =? 0)%Z
                then (Some 0%Z, snd (zookeeper_close p2))
                else (Some 0%Z, snd (zookeeper_close (snd (emit holds_lock p2))))
            | _, _ => (Some 0%Z, snd (zookeeper_close p2))
            end) = (status, p') ->
      main_shape zh path status (trace p')).
    { intros Hg Hu HA.
      assert (Ht : trace p2 = ev1 ++ ev2).
      { destruct c; try contradiction; now rewrite Ht2, Ht1. }
      exists (ev1 ++ ev2). split; [ exact Hq | ].
      destruct (5 <=? n2).
      - injection HA as <- <-. right. right. left. split; [ reflexivity | ].
        simpl. now rewrite Ht, <- app_assoc.
      - assert (Quiet : trace (snd (zookeeper_close p2))
                        = (ev1 ++ ev2) ++ [Zookeeper_close])
          by (simpl; now rewrite Ht).
        destruct (id v2) as [ i | ];
          [ destruct (ownerid v2) as [ o | ];
            [ destruct (negb (strcmp i o =? 0)%Z) | ] | ];
          injection HA as <- <-.
        + right. right. right. left. now split.
        + right. right. right. right. left. split; [ reflexivity | ].
          simpl. now rewrite Ht, <- app_assoc.
        + right. right. right. left. now split.
        + right. right. right. left. now split. }
    destruct c.
    + apply After; [ discriminate | discriminate | exact H ].
    + apply After; [ discriminate | discriminate | exact H ].
    + injection H as <- <-. destruct Ht2 as (x & Ht2).
      exists (ev1 ++ ev2). split; [ exact Hq | ]. right. left.
      split; [ reflexivity | ]. exists x.
      simpl. now rewrite Ht2, Ht1, <- !app_assoc.
    + injection H as <- <-. exists (ev1 ++ ev2). split; [ exact Hq | ].
      right. right. right. right. right. split; [ reflexivity | ].
      now rewrite Ht2, Ht1.
Qed.

End Main.

(** * The ordering claims *)

(** C1, at the input where the code departs from it: with session [bb]
    registered before session [aa], the sorted vector is [[bb-0; aa-1]];
    [child_floor] is NULL for [aa-1], which is not the minimum, and is [aa-1]
    for the minimum [bb-0].  The decision step run for [aa-1] leaves by
    [break] with [id] different from [ownerid], and that run of [main] ends
    without holding the lock and without naming a holder; the run of session
    [bb], whose node is the minimum, prints that [aa-1] is in its way. *)
Theorem floor_none_at_non_minimum :
  sort_children [node_aa1; node_bb0] = Some [node_bb0; node_aa1] /\
  child_floor [node_bb0; node_aa1] node_aa1 = None /\
  child_floor [node_bb0; node_aa1] node_bb0 = Some node_aa1 /\
  fst (decide zk_larger_session_first "/lock" ts_init 5 node_aa1
         {| id := None; ownerid := None |} start)
  = (Break, {| id := Some node_aa1; ownerid := Some node_bb0 |}) /\
  fst (main zk_larger_session_first "/lock" start) = Some 0%Z /\
  trace (snd (main zk_larger_session_first "/lock" start))
  = [Zoo_exists "/lock"; Nanosleep ts_init; Zoo_get_children "/lock";
     Zoo_get_children "/lock"; Zookeeper_close] /\
  trace (snd (main (server 187 (children_reply zk_larger_session_first)
                      (create_reply zk_larger_session_first))
                "/lock" start))
  = [Zoo_exists "/lock"; Nanosleep ts_init; Zoo_get_children "/lock";
     Zoo_get_children "/lock"; msg_blocked ("/lock/" ++ node_aa1)%string;
     Zookeeper_close].
Proof. repeat split; vm_compute; reflexivity. Qed.

(** C2, at an input where the code departs from it: in the vector sorted by
    sequence suffix [[aa-0; cc-1; bb-2]], [child_floor] of [bb-2] is [aa-0]
    and not its predecessor [cc-1], and [child_floor] of [cc-1] is [bb-2],
    which comes after it; in [[bb-0; aa-1]] it is NULL for [aa-1], which is
    not the minimum. *)
Theorem floor_is_not_the_sequence_predecessor :
  sort_children [node_bb2; node_cc1; node_aa0]
  = Some [node_aa0; node_cc1; node_bb2] /\
  child_floor [node_aa0; node_cc1; node_bb2] node_bb2 = Some node_aa0 /\
  child_floor [node_aa0; node_cc1; node_bb2] node_cc1 = Some node_bb2 /\
  child_floor [node_bb0; node_aa1] node_aa1 = None.
Proof. repeat split; vm_compute; reflexivity. Qed.

(** The example of the specification, where all names carry one session
    prefix: the floor of number 2 in [[1; 2; 5]] is number 1, and number 1 has
    none. *)
Example floor_example_one_session :
  let n1 := "x-00000000000000aa-0000000001" in
  let n2 := "x-00000000000000aa-0000000002" in
  let n5 := "x-00000000000000aa-0000000005" in
  sort_children [n5; n1; n2] = Some [n1; n2; n5] /\
  child_floor [n1; n2; n5] n2 = Some n1 /\
  child_floor [n1; n2; n5] n1 = None.
Proof. repeat split; vm_compute; reflexivity. Qed.

(** * The claims about [retry_getchildren] *)

(** C8: every call of [retry_getchildren] sees some number [k <= retry] of
    connection losses first, each followed by the delay.  If [k < retry], the
    next reply is not a connection loss: it is returned at once, after
    [k + 1] calls of [zoo_get_children] and no more.  Otherwise the budget is
    used up after [retry] calls and the connection loss is returned. *)
Theorem retry_only_on_connection_loss :
  forall (zh : zhandle_t) (path : string) (vector : list string)
         (ts : timespec) (retry : nat) (p : process),
  exists k,
    k <= retry /\
    (forall j, j < k ->
       fst (children_reply zh (children_calls p + j)) = ZCONNECTIONLOSS) /\
    let r := fst (retry_getchildren zh path vector ts retry p) in
    let p' := snd (retry_getchildren zh path vector ts retry p) in
    (k < retry ->
       fst r <> ZCONNECTIONLOSS /\
       fst r = fst (children_reply zh (children_calls p + k)) /\
       children_calls p' = children_calls p + k + 1 /\
       trace p' = trace p
                  ++ List.concat (repeat [Zoo_get_children path; Nanosleep ts] k)
                  ++ [Zoo_get_children path]) /\
    (k = retry ->
       fst r = ZCONNECTIONLOSS /\
       children_calls p' = children_calls p + retry /\
       trace p' = trace p
                  ++ List.concat (repeat [Zoo_get_children path; Nanosleep ts] retry)).
Proof.
  intros zh path vector ts retry p.
  destruct (retry_getchildren_runs zh path ts retry vector p) as (k & Hle & Hl & Hn & E).
  exists k. split; [ exact Hle | ]. split; [ exact Hl | ]. cbv zeta. rewrite E.
  split.
  - intro Hk. replace (k <? retry) with true by (symmetry; now apply Nat.ltb_lt).
    cbn [fst snd zoo_get_children after_losses children_calls trace].
    repeat split; [ now apply Hn | lia | now rewrite app_assoc ].
  - intros ->. rewrite Nat.ltb_irrefl. cbn [fst snd after_losses children_calls trace].
    repeat split.
Qed.

(** * The claims about the two loops of [main] *)

(** C3, at the input where the code departs from it: four rounds fail to
    enumerate, the fifth round registers the node and finds no entry below
    it, so the loop is left by [break] with [count = 5] and [id] equal to
    [ownerid]; [main] then prints the line of the exhausted budget and closes
    without holding the lock. *)
Theorem locked_in_last_round_is_reported_exhausted :
  fst (lock_loop 6 zk_locked_in_last_round "/lock" ts_init 5 0
         {| id := None; ownerid := None |}
         (snd (zoo_exists zk_locked_in_last_round "/lock" start)))
  = (Break, 5, {| id := Some node_aa0; ownerid := Some node_aa0 |}) /\
  fst (main zk_locked_in_last_round "/lock" start) = Some 0%Z /\
  (exists evs,
      trace (snd (main zk_locked_in_last_round "/lock" start))
      = evs ++ [Zoo_create "/lock/x-00000000000000aa-" 3;
                Zoo_get_children "/lock";
                msg_exhausted "/lock"; Zookeeper_close]) /\
  ~ In holds_lock (trace (snd (main zk_locked_in_last_round "/lock" start))).
Proof.
  split; [ vm_compute; reflexivity | ].
  split; [ vm_compute; reflexivity | ].
  split.
  - eexists. vm_compute. repeat (apply f_equal2; [ reflexivity | ]).
    instantiate (1 := [_; _; _; _; _; _; _; _; _; _; _; _; _; _; _]).
    reflexivity.
  - vm_compute. intro H.
    repeat (destruct H as [H | H]; [ discriminate H | ]). exact H.
Qed.

(** C5, at the input where the code departs from it: the existence check
    loses the connection five times and succeeds at the fifth retry, so the
    loop ends with [exists == ZOK] and [count == 5]; [main] prints that it
    could not create the directory and closes. *)
Theorem directory_found_in_last_round_is_reported_failed :
  fst (ensure_loop 6 zk_directory_in_last_round "/lock" ts_init 5
         ZCONNECTIONLOSS 0
         (snd (zoo_exists zk_directory_in_last_round "/lock" start)))
  = (ZOK, 5) /\
  fst (main zk_directory_in_last_round "/lock" start) = Some 0%Z /\
  trace (snd (main zk_directory_in_last_round "/lock" start))
  = [Zoo_exists "/lock";
     Nanosleep ts_init; Zoo_exists "/lock";
     Nanosleep ts_init; Zoo_exists "/lock";
     Nanosleep ts_init; Zoo_exists "/lock";
     Nanosleep ts_init; Zoo_exists "/lock";
     Nanosleep ts_init; Zoo_exists "/lock";
     msg_no_directory "/lock"; Zookeeper_close].
Proof. repeat split; vm_compute; reflexivity. Qed.

(** One retry fewer and the same script goes on to take the lock. *)
Example directory_found_before_last_round :
  let zh := {| init_reply := Handle;
               exists_reply := fun n => if n <? 4 then ZCONNECTIONLOSS else ZOK;
               create_reply := create_reply zk_directory_in_last_round;
               children_reply := children_reply zk_directory_in_last_round;
               client_id_reply := client_id_reply zk_directory_in_last_round |} in
  In holds_lock (trace (snd (main zh "/lock" start))).
Proof. vm_compute. intuition. Qed.

Lemma quiet_in (ts : timespec) (evs : list event) (e : event) :
  Forall (quiet ts) evs -> In e evs -> quiet ts e.
Proof. intros F H. rewrite Forall_forall in F. now apply F. Qed.

(** C4 as stated fails: session [cc] is third in line behind [aa] and [bb];
    the run prints the path of [bb-1], while the first entry of every sorted
    enumeration is [aa-0].  What holds instead is stated further down, with
    the round that ends the run. *)
Lemma blocked_does_not_report_the_minimum :
  ~ (forall (zh : zhandle_t) (path : string) (status : option Z)
            (p' : process) (last_child : string),
        main zh path start = (status, p') ->
        In (msg_blocked last_child) (trace p') ->
        status = Some 0%Z /\ holder_path zh path last_child).
Proof.
  intro H.
  destruct (H zk_third_in_line "/lock" (Some 0%Z)
              (snd (main zk_third_in_line "/lock" start))
              ("/lock/" ++ node_bb1)%string) as [_ (k & sorted & holder & _ & S & Hd & E)].
  - vm_compute. reflexivity.
  - vm_compute. auto 10.
  - vm_compute in S. injection S as <-. vm_compute in Hd. injection Hd as <-.
    vm_compute in E. discriminate E.
Qed.

(** * The claims about the candidate node *)

(** C6: when the children hold a name that the session's prefix begins, the
    candidate step returns such a name from the children (the first one, so
    that very name when no other child has the prefix) and leaves the process
    state as it was: no create call is counted and no event is added.  Run
    twice in a row it returns the same node both times, again with the state
    untouched. *)
Theorem registration_is_idempotent :
  forall (zh : zhandle_t) (path : string) (session : Z)
         (vector : list string) (name : string) (p : process),
    In name vector ->
    begins_with (session_prefix session) name = true ->
    exists node,
      resolve_candidate zh path (session_prefix session) vector p
      = (Some (Some node), p) /\
      In node vector /\
      begins_with (session_prefix session) node = true /\
      ((forall other, In other vector ->
                      begins_with (session_prefix session) other = true ->
                      other = name) -> node = name) /\
      (first <- resolve_candidate zh path (session_prefix session) vector ;;
       second <- resolve_candidate zh path (session_prefix session) vector ;;
       ret (first, second)) p
      = ((Some (Some node), Some (Some node)), p).
Proof.
  intros zh path session vector name p Hin Hb.
  pose proof (cstring_session_prefix session) as Hp.
  destruct (lookupnode_finds _ _ _ Hp Hin Hb) as [node L].
  pose proof L as L'. apply (lookupnode_Some _ _ _ Hp) in L'.
  destruct L' as (before & after & E & Hn & _).
  assert (Hnode : In node vector).
  { subst vector. apply in_or_app. right. now left. }
  exists node. split; [ now apply resolve_candidate_found | ].
  split; [ exact Hnode | ]. split; [ exact Hn | ]. split.
  - intro U. now apply U.
  - rewrite bind_eq, (resolve_candidate_found zh path _ _ _ p L).
    cbn [fst snd]. rewrite bind_eq, (resolve_candidate_found zh path _ _ _ p L).
    reflexivity.
Qed.

Lemma registration_is_idempotent_witness :
  exists node,
    resolve_candidate zk_alone "/lock" (session_prefix 170) [node_bb1; node_aa0] start
    = (Some (Some node), start) /\
    In node [node_bb1; node_aa0] /\
    begins_with (session_prefix 170) node = true /\
    ((forall other, In other [node_bb1; node_aa0] ->
                    begins_with (session_prefix 170) other = true ->
                    other = node_aa0) -> node = node_aa0) /\
    (first <- resolve_candidate zk_alone "/lock" (session_prefix 170)
                [node_bb1; node_aa0] ;;
     second <- resolve_candidate zk_alone "/lock" (session_prefix 170)
                 [node_bb1; node_aa0] ;;
     ret (first, second)) start
    = ((Some (Some node), Some (Some node)), start).
Proof.
  apply (registration_is_idempotent zk_alone "/lock" 170 [node_bb1; node_aa0]
           node_aa0 start).
  - right. left. reflexivity.
  - vm_compute. reflexivity.
Defined.



(** * The claims about the whole run *)

(** C9: the delay [ts] is 0 seconds and exactly 500000 nanoseconds, which is
    less than a millisecond, and every [nanosleep] of every run of [main] is
    called with it. *)
Theorem retry_delay_is_half_a_millisecond :
  ts_init = {| tv_sec := 0; tv_nsec := 500000 |} /\
  (tv_sec ts_init * 1000000000 + tv_nsec ts_init < 1000000)%Z /\
  forall (zh : zhandle_t) (path : string),
    Forall (fun e => match e with
                     | Nanosleep t => t = {| tv_sec := 0; tv_nsec := 500000 |}
                     | _ => True
                     end)
      (trace (snd (main zh path start))).
Proof.
  assert (V : ts_init = {| tv_sec := 0; tv_nsec := 500000 |})
    by (vm_compute; reflexivity).
  split; [ exact V | ]. split; [ vm_compute; reflexivity | ].
  intros zh path.
  assert (Q : forall evs, Forall (quiet ts_init) evs ->
                Forall (fun e => match e with
                                 | Nanosleep t => t = {| tv_sec := 0; tv_nsec := 500000 |}
                                 | _ => True
                                 end) evs).
  { intros evs F. eapply Forall_impl; [ | exact F ].
    intros [ | | | t | | | | ]; simpl; auto; intros ->; exact V. }
  destruct (init_reply zh) as [ | errno ] eqn:I.
  - destruct (main zh path start) as [status p'] eqn:M.
    apply (main_spec zh path status p' I) in M.
    destruct M as (evs & Hq & M). apply Q in Hq. cbn [snd].
    destruct M as [ [_ ->] | [ (_ & x & ->) | [ [_ ->] | [ [_ ->]
                  | [ [_ ->] | [_ ->] ] ] ] ] ];
      try exact Hq; apply Forall_app; (split; [ exact Hq | ]);
      repeat constructor.
  - rewrite (main_null zh path errno start I). constructor.
Qed.

(** The four outcomes, each with exit status 0. *)
Example exit_status_of_the_four_outcomes :
  (fst (main zk_alone "/lock" start) = Some 0%Z /\
   In holds_lock (trace (snd (main zk_alone "/lock" start)))) /\
  (fst (main zk_third_in_line "/lock" start) = Some 0%Z /\
   In (msg_blocked ("/lock/" ++ node_bb1)%string)
      (trace (snd (main zk_third_in_line "/lock" start)))) /\
  (fst (main zk_directory_in_last_round "/lock" start) = Some 0%Z /\
   In (msg_no_directory "/lock")
      (trace (snd (main zk_directory_in_last_round "/lock" start)))) /\
  (fst (main zk_flaky_then_refused "/lock" start) = Some 0%Z /\
   In (msg_exhausted "/lock")
      (trace (snd (main zk_flaky_then_refused "/lock" start)))) /\
  main zk_no_handle "/lock" start = (Some 111%Z, start).
Proof.
  vm_compute. repeat split; repeat first [ left; reflexivity | right ].
Qed.

(** * Further properties of the ordering functions *)

Lemma strrchr_app_last (c : ascii) (s : string) :
  strrchr s c = None ->
  forall p, strrchr (p ++ String c s)%string c = Some (String c s).
Proof.
  intros H p. induction p as [ | d p IH ]; simpl.
  - now rewrite H, Ascii.eqb_refl.
  - simpl in IH. now rewrite IH.
Qed.

Lemma strcmp_app_prefix (p a b : string) :
  strcmp (p ++ a)%string (p ++ b)%string = strcmp a b.
Proof.
  induction p as [ | c p IH ]; simpl; [ reflexivity | ].
  now rewrite Ascii.eqb_refl.
Qed.

Lemma vstrcmp_suffix (p q s t : string) :
  strrchr s "-" = None -> strrchr t "-" = None ->
  vstrcmp (p ++ "-" ++ s)%string (q ++ "-" ++ t)%string = Some (strcmp s t).
Proof.
  intros Hs Ht. unfold vstrcmp.
  change ("-" ++ s)%string with (String "-" s).
  change ("-" ++ t)%string with (String "-" t).
  now rewrite (strrchr_app_last _ _ Hs), (strrchr_app_last _ _ Ht).
Qed.

Lemma cstring_strrchr (c : ascii) (s : string) :
  forall r, cstring s -> strrchr s c = Some r -> cstring r.
Proof.
  induction s as [ | d s IH ]; intros r Hc H; simpl in H; [ discriminate | ].
  destruct (strrchr s c) as [ r' | ].
  - injection H as <-. apply IH; [ apply Hc | reflexivity ].
  - destruct (Ascii.eqb d c); [ | discriminate ]. now injection H as <-.
Qed.

Lemma cstring_ptr_succ (s : string) : cstring s -> cstring (ptr_succ s).
Proof. destruct s; simpl; tauto. Qed.

Lemma strcmp_le_trans (a b c : string) :
  cstring a -> cstring b ->
  strcmp_le a b -> strcmp_le b c -> strcmp_le a c.
Proof.
  unfold strcmp_le. intros Ha Hb H1 H2.
  destruct (Z.eq_dec (strcmp a b) 0) as [E | N].
  - apply strcmp_eq in E; [ now subst | exact Ha | exact Hb ].
  - assert (strcmp a c < 0)%Z; [ | lia ].
    apply (strcmp_lt_le_trans a b c); [ exact Hb | lia | exact H2 ].
Qed.

Lemma vle_trans (a b c : string) :
  cstring a -> cstring b -> vle a b -> vle b c -> vle a c.
Proof.
  intros Ha Hb (c1 & V1 & L1) (c2 & V2 & L2). unfold vle, vstrcmp in *.
  destruct (strrchr a "-") as [ sa | ] eqn:Sa; [ | discriminate ].
  destruct (strrchr b "-") as [ sb | ] eqn:Sb; [ | discriminate ].
  destruct (strrchr c "-") as [ sc | ]; [ | discriminate ].
  injection V1 as <-. injection V2 as <-. eexists. split; [ reflexivity | ].
  apply (strcmp_le_trans _ (ptr_succ sb)); try assumption.
  - apply cstring_ptr_succ. now apply (cstring_strrchr "-" a).
  - apply cstring_ptr_succ. now apply (cstring_strrchr "-" b).
Qed.

(** A list sorted link by link is sorted throughout when the relation is
    transitive on its elements. *)
Lemma Sorted_strong_on {A : Type} (R : A -> A -> Prop) (P : A -> Prop) :
  (forall a b c, P a -> P b -> R a b -> R b c -> R a c) ->
  forall l, Forall P l -> Sorted R l -> StronglySorted R l.
Proof.
  intros T l. induction l as [ | x l IH ]; intros HP HS.
  - constructor.
  - inversion HP as [ | ? ? Px Pl ]; subst.
    inversion HS as [ | ? ? Sl Hd ]; subst.
    specialize (IH Pl Sl). constructor; [ exact IH | ].
    destruct l as [ | y l ]; [ constructor | ].
    inversion Hd as [ | ? ? Rxy ]; subst.
    inversion IH as [ | ? ? _ Fy ]; subst.
    inversion Pl as [ | ? ? Py _ ]; subst.
    constructor; [ exact Rxy | ].
    eapply Forall_impl; [ | exact Fy ]. intros z Ryz. now apply (T x y z).
Qed.

(** X1: when [sort_children] goes through, the vector it leaves is a
    permutation of the one it was given, of the same length, and ordered link
    by link by [vstrcmp]; with NUL-free names its first entry, which [main]
    takes for [ownerid], is at or before every other entry in the order of
    the sequence suffixes. *)
Theorem sort_children_sorts :
  forall (vector sorted : list string),
    sort_children vector = Some sorted ->
    Permutation vector sorted /\
    List.length sorted = List.length vector /\
    Sorted vle sorted /\
    (Forall cstring vector ->
     forall first rest, sorted = first :: rest -> Forall (vle first) rest).
Proof.
  intros vector sorted H.
  pose proof (sort_children_Permutation _ _ H) as HP.
  pose proof (sort_children_ordered _ _ H) as HS.
  split; [ exact HP | ]. split; [ symmetry; now apply Permutation_length | ].
  split; [ exact HS | ].
  intros Hc first rest ->.
  assert (Hc' : Forall cstring (first :: rest))
    by (eapply Permutation_Forall; eassumption).
  apply (Sorted_strong_on vle cstring) in HS; [ | | exact Hc' ].
  - now inversion HS.
  - intros a b c Pa Pb. now apply vle_trans.
Qed.

Lemma sort_children_sorts_witness :
  Permutation [node_bb2; node_cc1; node_aa0] [node_aa0; node_cc1; node_bb2] /\
  List.length [node_aa0; node_cc1; node_bb2]
  = List.length [node_bb2; node_cc1; node_aa0] /\
  Sorted vle [node_aa0; node_cc1; node_bb2] /\
  (Forall cstring [node_bb2; node_cc1; node_aa0] ->
   forall first rest,
     [node_aa0; node_cc1; node_bb2] = first :: rest -> Forall (vle first) rest).
Proof.
  apply (sort_children_sorts [node_bb2; node_cc1; node_aa0]).
  vm_compute. reflexivity.
Defined.

Lemma qsort_insert_has_dash (x : string) (sorted : list string) :
  forall r, sorted <> [] -> qsort_insert x sorted = Some r ->
            has_dash x /\ (forall y rest, sorted = y :: rest -> has_dash y).
Proof.
  intros r Hne H. destruct sorted as [ | y rest ]; [ contradiction | ].
  simpl in H. unfold vstrcmp in H. unfold has_dash.
  destruct (strrchr x "-"); [ | discriminate ].
  destruct (strrchr y "-") eqn:Y; [ | discriminate ].
  split; [ discriminate | ]. intros y' rest' E. injection E as <- _.
  rewrite Y. discriminate.
Qed.

Lemma sort_children_has_dash (vector : list string) :
  forall sorted, 2 <= List.length vector ->
                 sort_children vector = Some sorted -> Forall has_dash vector.
Proof.
  induction vector as [ | x rest IH ]; intros sorted Hl H; simpl in *; [ lia | ].
  destruct (sort_children rest) as [ s | ] eqn:S; [ | discriminate ].
  pose proof (sort_children_Permutation _ _ S) as HP.
  destruct rest as [ | y rest' ]; [ simpl in Hl; lia | ].
  assert (Hne : s <> []).
  { intro E. subst s. apply Permutation_sym, Permutation_nil in HP. discriminate. }
  destruct (qsort_insert_has_dash _ _ _ Hne H) as [Hx Hhead].
  constructor; [ exact Hx | ].
  destruct rest' as [ | z rest'' ].
  - simpl in S. injection S as <-. constructor; [ | constructor ].
    now apply (Hhead y []).
  - apply (IH s); [ simpl; lia | reflexivity ].
Qed.

Lemma has_dash_dec (name : string) : {has_dash name} + {~ has_dash name}.
Proof.
  unfold has_dash. destruct (strrchr name "-").
  - left. discriminate.
  - right. intro H. now apply H.
Qed.

(** X2: [sort_children] is undefined exactly when there are two children or
    more and one of the names has no ['-'] for [vstrcmp] to start from; a
    vector of at most one child is left as it is, whatever the name. *)
Theorem sort_children_undefined_iff :
  forall (vector : list string),
    (sort_children vector = None <->
     2 <= List.length vector /\
     Exists (fun name => strrchr name "-" = None) vector) /\
    (List.length vector <= 1 -> sort_children vector = Some vector).
Proof.
  intro vector. split; [ split | ].
  - intro H.
    assert (Hl : 2 <= List.length vector).
    { destruct vector as [ | x [ | y rest ] ]; try discriminate H; simpl; lia. }
    split; [ exact Hl | ].
    destruct (Forall_Exists_dec has_dash has_dash_dec vector) as [F | E].
    + assert (F' : Forall (fun name => seq_suffix name <> None) vector).
      { eapply Forall_impl; [ | exact F ]. intros name N.
        unfold has_dash in N. unfold seq_suffix.
        destruct (strrchr name "-"); [ discriminate | contradiction ]. }
      destruct (sort_children_defined vector F') as [s Hs]. congruence.
    + eapply Exists_impl; [ | exact E ]. intros name N. unfold has_dash in N.
      destruct (strrchr name "-"); [ | reflexivity ].
      exfalso. apply N. discriminate.
  - intros [Hl E]. destruct (sort_children vector) as [ s | ] eqn:S;
      [ | reflexivity ].
    exfalso. apply (sort_children_has_dash _ _ Hl) in S.
    rewrite Exists_exists in E. destruct E as (name & Hin & Hn).
    rewrite Forall_forall in S. now apply (S name Hin).
  - intro Hl. destruct vector as [ | x [ | y rest ] ]; try reflexivity.
    simpl in Hl. lia.
Qed.

(** X3: [vstrcmp] looks at nothing but what follows the last ['-']: for two
    names whose sequence suffixes [s] and [t] hold no ['-'], the result is
    [strcmp s t] whatever stands before, so the session part of a name never
    weighs on the order; swapping the names flips the sign. *)
Theorem vstrcmp_reads_the_sequence_suffix :
  forall (p q s t : string),
    strrchr s "-" = None -> strrchr t "-" = None ->
    vstrcmp (p ++ "-" ++ s)%string (q ++ "-" ++ t)%string = Some (strcmp s t) /\
    vstrcmp (q ++ "-" ++ t)%string (p ++ "-" ++ s)%string
    = Some (- strcmp s t)%Z.
Proof.
  intros p q s t Hs Ht. split; [ now apply vstrcmp_suffix | ].
  rewrite (vstrcmp_suffix q p t s Ht Hs). now rewrite (strcmp_antisym t s), Z.opp_involutive.
Qed.

Lemma vstrcmp_reads_the_sequence_suffix_witness :
  vstrcmp ("x-00000000000000bb" ++ "-" ++ "0000000000")%string
          ("x-00000000000000aa" ++ "-" ++ "0000000001")%string
  = Some (strcmp "0000000000" "0000000001") /\
  vstrcmp ("x-00000000000000aa" ++ "-" ++ "0000000001")%string
          ("x-00000000000000bb" ++ "-" ++ "0000000000")%string
  = Some (- strcmp "0000000000" "0000000001")%Z.
Proof.
  apply vstrcmp_reads_the_sequence_suffix; reflexivity.
Defined.

Lemma child_floor_loop_app (l1 l2 : list string) (element : string) :
  forall acc,
    child_floor_loop (l1 ++ l2) element acc
    = child_floor_loop l2 element (child_floor_loop l1 element acc).
Proof.
  induction l1 as [ | d l1 IH ]; intro acc; simpl; [ reflexivity | apply IH ].
Qed.

Lemma child_floor_loop_none_below (l : list string) (element : string) :
  forall acc,
    Forall (fun d => (0 <= strcmp d element)%Z) l ->
    child_floor_loop l element acc = acc.
Proof.
  induction l as [ | d l IH ]; intros acc F; simpl; [ reflexivity | ].
  inversion F as [ | ? ? Hd Hl ]; subst.
  replace (strcmp d element <? 0)%Z with false
    by (symmetry; now apply Z.ltb_ge).
  now apply IH.
Qed.

Lemma child_floor_loop_all_below (l : list string) (element : string) :
  forall acc,
    Forall (fun d => (strcmp d element < 0)%Z) l ->
    child_floor_loop l element acc
    = match hd_error (rev l) with Some x => Some x | None => acc end.
Proof.
  induction l as [ | x l IH ] using rev_ind; intros acc F; [ reflexivity | ].
  apply Forall_app in F. destruct F as [_ F]. inversion F as [ | ? ? Hx _ ]; subst.
  rewrite child_floor_loop_app, rev_app_distr. simpl.
  now replace (strcmp x element <? 0)%Z with true
    by (symmetry; now apply Z.ltb_lt).
Qed.

Lemma StronglySorted_split {A : Type} (R : A -> A -> Prop) (before after : list A)
    (e : A) :
  StronglySorted R (before ++ e :: after) ->
  Forall (fun d => R d e) before /\ Forall (R e) after.
Proof.
  induction before as [ | x before IH ]; simpl; intro H.
  - inversion H; subst. now split.
  - inversion H as [ | ? ? Hs Hf ]; subst. destruct (IH Hs) as [Hb Ha].
    split; [ | exact Ha ]. constructor; [ | exact Hb ].
    apply Forall_app in Hf. destruct Hf as [_ Hf]. now inversion Hf.
Qed.

(** In a vector that [strcmp] itself finds sorted, the floor of an entry is
    the entry just before it. *)
Lemma floor_in_strcmp_sorted (before after : list string) (e : string) :
  Forall cstring (before ++ e :: after) ->
  NoDup (before ++ e :: after) ->
  Sorted strcmp_le (before ++ e :: after) ->
  child_floor (before ++ e :: after) e = hd_error (rev before).
Proof.
  intros Hc Hn Hs.
  apply (Sorted_strong_on strcmp_le cstring) in Hs;
    [ | intros a b c Pa Pb; now apply strcmp_le_trans | exact Hc ].
  apply StronglySorted_split in Hs. destruct Hs as [Hb Ha].
  assert (Below : Forall (fun d => (strcmp d e < 0)%Z) before).
  { rewrite Forall_forall in *. intros d Hd. specialize (Hb d Hd).
    unfold strcmp_le in Hb.
    assert (strcmp d e <> 0)%Z; [ | lia ].
    intro E. apply strcmp_eq in E.
    - subst d. apply NoDup_remove_2 in Hn. apply Hn, in_or_app. now left.
    - apply Hc, in_or_app. now left.
    - apply Hc, in_or_app. right. now left. }
  assert (Above : Forall (fun d => (0 <= strcmp d e)%Z) after).
  { eapply Forall_impl; [ | exact Ha ]. intros d Hd. unfold strcmp_le in Hd.
    rewrite (strcmp_antisym e d). lia. }
  unfold child_floor. rewrite child_floor_loop_app. simpl.
  rewrite strcmp_refl. simpl.
  rewrite (child_floor_loop_none_below _ _ _ Above).
  rewrite (child_floor_loop_all_below _ _ _ Below).
  now destruct (hd_error (rev before)).
Qed.

(** X4: what [child_floor] computes.  A name it returns is an entry of the
    vector that [strcmp] puts strictly below [element], the last such entry
    of the vector, and never [element] itself; it returns NULL exactly when
    [strcmp] puts no entry below [element], in particular for the empty
    vector. *)
Theorem child_floor_spec :
  forall (sorted_data : list string) (element : string),
    match child_floor sorted_data element with
    | Some x =>
        last_below sorted_data element x /\ In x sorted_data /\ x <> element
    | None => Forall (fun d => (0 <= strcmp d element)%Z) sorted_data
    end /\
    child_floor [] element = None.
Proof.
  intros sorted_data element. split; [ | reflexivity ].
  destruct (child_floor sorted_data element) as [ x | ] eqn:F.
  - apply child_floor_Some in F. split; [ exact F | ].
    destruct F as (b & a & E & L & _). split.
    + subst sorted_data. apply in_or_app. right. now left.
    + intros ->. rewrite strcmp_refl in L. lia.
  - now apply child_floor_None.
Qed.

(** X5: among one or more NUL-free names exactly one has no floor: the name
    that [strcmp] on the whole name puts at or below all the others.  Every
    other name has a floor. *)
Theorem exactly_one_name_has_no_floor :
  forall (names : list string),
    names <> [] -> Forall cstring names ->
    exists winner,
      In winner names /\
      child_floor names winner = None /\
      Forall (fun d => (strcmp winner d <= 0)%Z) names /\
      forall other, In other names -> other <> winner ->
                    exists below, child_floor names other = Some below.
Proof.
  intros names Hne Hc.
  destruct (child_floor_single_winner names Hne Hc) as (w & Hin & Hnone & Huniq).
  exists w. split; [ exact Hin | ]. split; [ exact Hnone | ]. split.
  - apply child_floor_None in Hnone. eapply Forall_impl; [ | exact Hnone ].
    intros d Hd. simpl in Hd. rewrite (strcmp_antisym d w). lia.
  - intros other Ho Hneq. destruct (child_floor names other) as [ b | ] eqn:F.
    + now exists b.
    + exfalso. apply Hneq. now apply Huniq.
Qed.

Lemma exactly_one_name_has_no_floor_witness :
  exists winner,
    In winner [node_bb0; node_aa1] /\
    child_floor [node_bb0; node_aa1] winner = None /\
    Forall (fun d => (strcmp winner d <= 0)%Z) [node_bb0; node_aa1] /\
    forall other, In other [node_bb0; node_aa1] -> other <> winner ->
                  exists below, child_floor [node_bb0; node_aa1] other = Some below.
Proof.
  apply exactly_one_name_has_no_floor.
  - discriminate.
  - repeat constructor; discriminate.
Defined.

(** X6: on a vector of distinct NUL-free names that is sorted in the order of
    [strcmp] on whole names, [child_floor] of an entry is the entry just
    before it, and NULL for the first entry. *)
Theorem child_floor_is_the_entry_before :
  forall (before after : list string) (element : string),
    Forall cstring (before ++ element :: after) ->
    NoDup (before ++ element :: after) ->
    Sorted strcmp_le (before ++ element :: after) ->
    child_floor (before ++ element :: after) element = hd_error (rev before) /\
    (before = [] -> child_floor (element :: after) element = None).
Proof.
  intros before after element Hc Hn Hs.
  split; [ now apply floor_in_strcmp_sorted | ].
  intros ->. now apply (floor_in_strcmp_sorted [] after element).
Qed.

Lemma child_floor_is_the_entry_before_witness :
  child_floor ([node_aa0; node_bb1] ++ node_cc2 :: []) node_cc2
  = hd_error (rev [node_aa0; node_bb1]) /\
  ([node_aa0; node_bb1] = [] -> child_floor (node_cc2 :: []) node_cc2 = None).
Proof.
  apply child_floor_is_the_entry_before.
  - repeat constructor; discriminate.
  - repeat constructor; simpl; intuition discriminate.
  - repeat constructor; unfold strcmp_le; vm_compute; discriminate.
Defined.

Lemma Sorted_impl_on {A : Type} (R R' : A -> A -> Prop) (P : A -> Prop) :
  (forall a b, P a -> P b -> R a b -> R' a b) ->
  forall l, Forall P l -> Sorted R l -> Sorted R' l.
Proof.
  intros Himp l. induction l as [ | x l IH ]; intros HP HS; [ constructor | ].
  inversion HP as [ | ? ? Px Pl ]; subst. inversion HS as [ | ? ? Sl Hd ]; subst.
  constructor; [ now apply IH | ].
  destruct l as [ | y l ]; [ constructor | ].
  inversion Hd; subst. inversion Pl; subst. constructor. now apply Himp.
Qed.

Lemma string_app_inv_head (p a b : string) :
  (p ++ a)%string = (p ++ b)%string -> a = b.
Proof.
  induction p as [ | c p IH ]; simpl; intro H; [ exact H | ].
  injection H as H. now apply IH.
Qed.

(** X7: when all children carry one and the same prefix before their
    sequence suffix, and the suffixes are distinct, NUL-free and hold no
    ['-'], the order of [vstrcmp] and the order of [strcmp] on whole names
    agree: after [sort_children], [child_floor] of an entry is the entry just
    before it in the sorted vector, and NULL for the first entry. *)
Theorem floor_within_one_prefix :
  forall (pre : string) (suffixes before after : list string) (element : string),
    cstring pre ->
    Forall (fun s => cstring s /\ strrchr s "-" = None) suffixes ->
    NoDup suffixes ->
    sort_children (map (fun s => pre ++ "-" ++ s)%string suffixes)
    = Some (before ++ element :: after) ->
    child_floor (before ++ element :: after) element = hd_error (rev before).
Proof.
  intros pre suffixes before after element Hpre Hsuf Hnd Hsort.
  pose proof (sort_children_Permutation _ _ Hsort) as HP.
  pose proof (sort_children_ordered _ _ Hsort) as HS.
  set (shaped := fun name : string =>
                   exists s, name = (pre ++ "-" ++ s)%string /\
                             cstring s /\ strrchr s "-" = None).
  assert (Hshape : Forall shaped (before ++ element :: after)).
  { eapply Permutation_Forall; [ exact HP | ].
    rewrite Forall_forall in *. intros name Hin. apply in_map_iff in Hin.
    destruct Hin as (s & <- & Hs). exists s. split; [ reflexivity | now apply Hsuf ]. }
  apply floor_in_strcmp_sorted.
  - eapply Forall_impl; [ | exact Hshape ]. intros name (s & -> & Hc & _).
    apply cstring_app; [ exact Hpre | ].
    apply (cstring_app "-"); [ simpl; split; [ discriminate | exact I ] | exact Hc ].
  - eapply Permutation_NoDup; [ exact HP | ].
    apply Finite.Injective_map_NoDup; [ | exact Hnd ].
    intros a b E. apply string_app_inv_head in E.
    now apply (string_app_inv_head "-") in E.
  - apply (Sorted_impl_on vle strcmp_le shaped); [ | exact Hshape | exact HS ].
    intros a b (sa & -> & _ & Da) (sb & -> & _ & Db) (c & V & L).
    rewrite (vstrcmp_suffix pre pre sa sb Da Db) in V. injection V as <-.
    unfold strcmp_le. rewrite strcmp_app_prefix.
    now rewrite (strcmp_app_prefix "-").
Qed.

Lemma floor_within_one_prefix_witness :
  child_floor (["x-00000000000000aa-0000000001"]
               ++ "x-00000000000000aa-0000000002"
               :: ["x-00000000000000aa-0000000005"])
    "x-00000000000000aa-0000000002"
  = hd_error (rev ["x-00000000000000aa-0000000001"]).
Proof.
  apply (floor_within_one_prefix "x-00000000000000aa"
           ["0000000005"; "0000000001"; "0000000002"]).
  - simpl. repeat split; discriminate.
  - repeat constructor; try discriminate; reflexivity.
  - repeat constructor; simpl; intuition discriminate.
  - vm_compute. reflexivity.
Defined.

(** * Further properties of the candidate lookup *)

Lemma string_length_app (a b : string) :
  String.length (a ++ b)%string = String.length a + String.length b.
Proof. induction a as [ | c a IH ]; simpl; [ reflexivity | now rewrite IH ]. Qed.

Lemma substring_all (s : string) :
  forall n, String.length s <= n -> substring 0 n s = s.
Proof.
  induction s as [ | c s IH ]; intros n H.
  - now destruct n.
  - destruct n as [ | n ]; simpl in *; [ lia | ]. f_equal. apply IH. lia.
Qed.

Lemma string_app_assoc (a b c : string) :
  ((a ++ b) ++ c)%string = (a ++ (b ++ c))%string.
Proof. induction a as [ | x a IH ]; simpl; [ reflexivity | now rewrite IH ]. Qed.

Lemma lower_hex_app (width : nat) :
  forall v acc, lower_hex width v acc = (lower_hex width v "" ++ acc)%string.
Proof.
  induction width as [ | w IH ]; intros v acc; simpl; [ reflexivity | ].
  rewrite (IH _ (String _ acc)), (IH _ (String _ "")).
  now rewrite string_app_assoc.
Qed.

Lemma length_lower_hex (width : nat) :
  forall v acc,
    String.length (lower_hex width v acc) = width + String.length acc.
Proof.
  induction width as [ | w IH ]; intros v acc; simpl; [ reflexivity | ].
  rewrite IH. simpl. lia.
Qed.

Lemma session_prefix_eq (session : Z) :
  session_prefix session
  = ("x-" ++ lower_hex 16 (session mod 2 ^ 64)%Z "" ++ "-")%string.
Proof.
  unfold session_prefix, snprintf. apply substring_all.
  rewrite !string_length_app, length_lower_hex. simpl. lia.
Qed.

Lemma strlen_session_prefix (session : Z) : strlen (session_prefix session) = 19.
Proof.
  rewrite session_prefix_eq. unfold strlen.
  rewrite !string_length_app, length_lower_hex. reflexivity.
Qed.

Lemma snprintf_buf (path prefix : string) :
  snprintf (strlen path + strlen prefix + 2) (path ++ "/" ++ prefix)%string
  = (path ++ "/" ++ prefix)%string.
Proof.
  unfold snprintf, strlen. apply substring_all.
  rewrite !string_length_app. simpl. lia.
Qed.

Lemma strrchr_app_None (c : ascii) (a b : string) :
  strrchr a c = None -> strrchr b c = None -> strrchr (a ++ b)%string c = None.
Proof.
  intros Ha Hb. induction a as [ | d a IH ]; simpl in *; [ exact Hb | ].
  destruct (strrchr a c); [ discriminate | ].
  rewrite (IH eq_refl). destruct (Ascii.eqb d c); [ discriminate | reflexivity ].
Qed.

Lemma strrchr_app_Some (c : ascii) (p t : string) :
  strrchr (p ++ String c t)%string c <> None.
Proof.
  induction p as [ | d p IH ]; simpl.
  - destruct (strrchr t c); [ discriminate | ]. rewrite Ascii.eqb_refl. discriminate.
  - simpl in IH. destruct (strrchr (p ++ String c t) c); [ discriminate | ].
    contradiction.
Qed.

Lemma strrchr_Some_inv (c : ascii) (s : string) :
  forall r, strrchr s c = Some r ->
            exists p t, s = (p ++ String c t)%string /\ r = String c t /\
                        strrchr t c = None.
Proof.
  induction s as [ | d s IH ]; intros r H; simpl in H; [ discriminate | ].
  destruct (strrchr s c) as [ r' | ] eqn:S.
  - injection H as <-. destruct (IH r' eq_refl) as (p & t & -> & -> & Ht).
    now exists (String d p), t.
  - destruct (Ascii.eqb d c) eqn:E; [ | discriminate ].
    injection H as <-. apply Ascii.eqb_eq in E. subst d. now exists EmptyString, s.
Qed.

Lemma hex_digit_not_slash (d : Z) : hex_digit d <> "/"%char.
Proof.
  unfold hex_digit.
  repeat match goal with
         | |- context [match ?x with _ => _ end] => destruct x
         end; discriminate.
Qed.

Lemma strrchr_lower_hex_slash (width : nat) :
  forall v acc, strrchr acc "/" = None -> strrchr (lower_hex width v acc) "/" = None.
Proof.
  induction width as [ | w IH ]; intros v acc H; simpl; [ exact H | ].
  apply IH. simpl. rewrite H.
  destruct (Ascii.eqb (hex_digit (v mod 16)) "/") eqn:E; [ | reflexivity ].
  apply Ascii.eqb_eq in E. now apply hex_digit_not_slash in E.
Qed.

Lemma strrchr_session_prefix_slash (session : Z) :
  strrchr (session_prefix session) "/" = None.
Proof.
  rewrite session_prefix_eq. apply (strrchr_app_None "/" "x-"); [ reflexivity | ].
  rewrite <- lower_hex_app. now apply strrchr_lower_hex_slash.
Qed.

Lemma begins_with_app (p r : string) : begins_with p (p ++ r)%string = true.
Proof.
  induction p as [ | c p IH ]; simpl; [ reflexivity | ].
  now rewrite Ascii.eqb_refl.
Qed.

(** X8: with a NUL-free prefix, [lookupnode] returns NULL exactly when the
    prefix begins none of the children, and otherwise returns the first child
    it begins, with every child before that one passed over.  An empty
    prefix takes the first child whatever its name. *)
Theorem lookupnode_spec :
  forall (prefix : string) (vector : list string),
    cstring prefix ->
    (lookupnode vector prefix = None <->
     Forall (fun child => begins_with prefix child = false) vector) /\
    (forall child,
        lookupnode vector prefix = Some child <->
        exists before after,
          vector = before ++ child :: after /\
          begins_with prefix child = true /\
          Forall (fun c => begins_with prefix c = false) before) /\
    (forall first rest, lookupnode (first :: rest) "" = Some first).
Proof.
  intros prefix vector Hp. split; [ | split ].
  - induction vector as [ | c rest IH ]; simpl.
    + split; [ constructor | reflexivity ].
    + rewrite (strncmp_begins_with _ _ Hp).
      destruct (begins_with prefix c) eqn:B.
      * split; [ discriminate | ]. intro F. inversion F; congruence.
      * rewrite IH. split.
        -- intro F. now constructor.
        -- intro F. now inversion F.
  - intro child. now apply lookupnode_Some.
  - reflexivity.
Qed.

Lemma lookupnode_spec_witness :
  (lookupnode [node_bb1; node_aa0] (session_prefix 170) = None <->
   Forall (fun child => begins_with (session_prefix 170) child = false)
     [node_bb1; node_aa0]) /\
  (forall child,
      lookupnode [node_bb1; node_aa0] (session_prefix 170) = Some child <->
      exists before after,
        [node_bb1; node_aa0] = before ++ child :: after /\
        begins_with (session_prefix 170) child = true /\
        Forall (fun c => begins_with (session_prefix 170) c = false) before) /\
  (forall first rest, lookupnode (first :: rest) "" = Some first).
Proof.
  apply lookupnode_spec. vm_compute. repeat split; discriminate.
Defined.

(** X9: the buffers are large enough.  The prefix of a session is ["x-"], 16
    hex digits and ["-"]: 19 characters, which the 30 bytes of [prefix] hold
    with their terminator, so [snprintf] cuts nothing off; it has no NUL and no
    ['/'].  [buf] holds the directory, a ['/'] and the prefix in full, and
    that is the path of the one create the candidate step issues, with the
    flags [ZOO_EPHEMERAL | ZOO_SEQUENCE]. *)
Theorem buffers_hold_the_names :
  forall (zh : zhandle_t) (path : string) (session : Z)
         (vector : list string) (p : process),
    strlen (session_prefix session) = 19 /\
    session_prefix session
    = ("x-" ++ lower_hex 16 (session mod 2 ^ 64)%Z "" ++ "-")%string /\
    cstring (session_prefix session) /\
    strrchr (session_prefix session) "/" = None /\
    snprintf (strlen path + strlen (session_prefix session) + 2)
      (path ++ "/" ++ session_prefix session)%string
    = (path ++ "/" ++ session_prefix session)%string /\
    (lookupnode vector (session_prefix session) = None ->
     exists rest,
       trace (snd (resolve_candidate zh path (session_prefix session) vector p))
       = trace p
         ++ Zoo_create (path ++ "/" ++ session_prefix session)%string 3 :: rest).
Proof.
  intros zh path session vector p.
  split; [ apply strlen_session_prefix | ].
  split; [ apply session_prefix_eq | ].
  split; [ apply cstring_session_prefix | ].
  split; [ apply strrchr_session_prefix_slash | ].
  split; [ apply snprintf_buf | ].
  intro L. rewrite (resolve_candidate_absent zh path _ _ p L). cbv zeta.
  rewrite snprintf_buf.
  destruct (negb (rc_eqb (fst (create_reply zh (create_calls p))) ZOK)).
  - eexists [_]. cbn [snd fprintf_stderr emit zoo_create trace].
    now rewrite <- app_assoc.
  - exists []. reflexivity.
Qed.

Lemma hex_digit_inj (a b : Z) :
  (0 <= a < 16)%Z -> (0 <= b < 16)%Z -> hex_digit a = hex_digit b -> a = b.
Proof.
  intros Ha Hb.
  assert (Ca : (a = 0 \/ a = 1 \/ a = 2 \/ a = 3 \/ a = 4 \/ a = 5 \/ a = 6 \/ a = 7
               \/ a = 8 \/ a = 9 \/ a = 10 \/ a = 11 \/ a = 12 \/ a = 13
               \/ a = 14 \/ a = 15)%Z) by lia.
  assert (Cb : (b = 0 \/ b = 1 \/ b = 2 \/ b = 3 \/ b = 4 \/ b = 5 \/ b = 6 \/ b = 7
               \/ b = 8 \/ b = 9 \/ b = 10 \/ b = 11 \/ b = 12 \/ b = 13
               \/ b = 14 \/ b = 15)%Z) by lia.
  repeat (destruct Ca as [ -> | Ca ]); try subst a;
    repeat (destruct Cb as [ -> | Cb ]); try subst b;
    simpl; intro H; try reflexivity; discriminate H.
Qed.

Lemma string_app_inv_length (a b c d : string) :
  String.length a = String.length b ->
  (a ++ c)%string = (b ++ d)%string -> a = b /\ c = d.
Proof.
  revert b. induction a as [ | x a IH ]; intros [ | y b ] L H; simpl in *;
    try discriminate L.
  - now split.
  - injection H as -> H. injection L as L. destruct (IH b L H) as [-> ->].
    now split.
Qed.

Lemma lower_hex_inj (width : nat) :
  forall v1 v2 acc1 acc2,
    String.length acc1 = String.length acc2 ->
    lower_hex width v1 acc1 = lower_hex width v2 acc2 ->
    acc1 = acc2 /\ (v1 mod 16 ^ Z.of_nat width = v2 mod 16 ^ Z.of_nat width)%Z.
Proof.
  induction width as [ | w IH ]; intros v1 v2 acc1 acc2 L H.
  - simpl in H. split; [ exact H | ]. now rewrite !Z.mod_1_r.
  - cbn [lower_hex] in H. apply IH in H; [ | simpl; now rewrite L ].
    destruct H as [E M]. injection E as D ->. split; [ reflexivity | ].
    apply hex_digit_inj in D; try (apply Z.mod_pos_bound; lia).
    rewrite Nat2Z.inj_succ, Z.pow_succ_r by lia.
    rewrite !(Z.rem_mul_r _ 16) by lia. now rewrite D, M.
Qed.

Lemma session_prefix_inj (a b : Z) :
  session_prefix a = session_prefix b -> (a mod 2 ^ 64 = b mod 2 ^ 64)%Z.
Proof.
  rewrite !session_prefix_eq. intro H.
  apply (string_app_inv_head "x-") in H.
  rewrite <- !lower_hex_app in H. apply lower_hex_inj in H; [ | reflexivity ].
  destruct H as [_ H]. change (16 ^ Z.of_nat 16)%Z with (2 ^ 64)%Z in H.
  now rewrite !Z.mod_mod in H by lia.
Qed.

Lemma begins_with_same_length (p q r : string) :
  String.length p = String.length q ->
  begins_with p (q ++ r)%string = true -> p = q.
Proof.
  revert q. induction p as [ | c p IH ]; intros [ | d q ] L H; simpl in *;
    try discriminate L; [ reflexivity | ].
  apply andb_prop in H. destruct H as [E H]. apply Ascii.eqb_eq in E. subst d.
  f_equal. apply IH; [ now injection L | exact H ].
Qed.

(** X10: the prefix tells sessions apart.  The prefix of session [a] begins
    a name made of the prefix of session [b] and anything after it exactly
    when [a] and [b] are the same 64-bit value.  So among children that each
    start with the prefix of some session, [lookupnode] hands a session
    nothing but a node of its own. *)
Theorem session_prefix_tells_sessions_apart :
  forall (a b : Z) (rest : string),
    (begins_with (session_prefix a) (session_prefix b ++ rest)%string = true <->
     (a mod 2 ^ 64 = b mod 2 ^ 64)%Z) /\
    (forall (vector : list string) (child : string),
        Forall (fun c => exists s seq, c = (session_prefix s ++ seq)%string) vector ->
        lookupnode vector (session_prefix a) = Some child ->
        exists s seq, child = (session_prefix s ++ seq)%string /\
                      (s mod 2 ^ 64 = a mod 2 ^ 64)%Z).
Proof.
  intros a b rest.
  assert (Iff : forall x y r,
             begins_with (session_prefix x) (session_prefix y ++ r)%string = true <->
             (x mod 2 ^ 64 = y mod 2 ^ 64)%Z).
  { intros x y r. split.
    - intro H. apply session_prefix_inj.
      apply (begins_with_same_length _ _ r); [ | exact H ].
      pose proof (strlen_session_prefix x) as Lx.
      pose proof (strlen_session_prefix y) as Ly.
      unfold strlen in *. congruence.
    - intro H. replace (session_prefix x) with (session_prefix y).
      + apply begins_with_app.
      + unfold session_prefix. now rewrite H. }
  split; [ apply Iff | ].
  intros vector child F L.
  apply (lookupnode_Some _ _ _ (cstring_session_prefix a)) in L.
  destruct L as (before & after & -> & B & _).
  apply Forall_app in F. destruct F as [_ F]. inversion F as [ | ? ? Hc _ ]; subst.
  destruct Hc as (s & seq & ->). exists s, seq. split; [ reflexivity | ].
  symmetry. now apply (Iff a s seq).
Qed.

Lemma getName_path (dir name : string) :
  strrchr name "/" = None -> getName (dir ++ "/" ++ name)%string = Some name.
Proof.
  intro Hn. unfold getName, strdup.
  change ("/" ++ name)%string with (String "/" name).
  now rewrite (strrchr_app_last _ _ Hn).
Qed.

(** X11: [getName] returns the part of a path after its last ['/'], which
    holds no ['/'] itself, and it returns NULL exactly when the string has no
    ['/'] at all. *)
Theorem getName_spec :
  forall (str : string),
    (forall name,
        getName str = Some name <->
        exists dir, str = (dir ++ "/" ++ name)%string /\ strrchr name "/" = None) /\
    (getName str = None <->
     forall dir rest, str <> (dir ++ "/" ++ rest)%string).
Proof.
  intro str. unfold getName, strdup. split.
  - intro name. split.
    + destruct (strrchr str "/") as [ r | ] eqn:S; [ | discriminate ].
      intro H. injection H as <-.
      destruct (strrchr_Some_inv _ _ _ S) as (p & t & -> & -> & Ht).
      now exists p.
    + intros (dir & -> & Hn). fold (getName (dir ++ "/" ++ name)%string).
      now apply getName_path.
  - split.
    + destruct (strrchr str "/") as [ r | ] eqn:S; [ discriminate | ].
      intros _ dir rest ->. now apply (strrchr_app_Some "/" dir rest).
    + intro H. destruct (strrchr str "/") as [ r | ] eqn:S; [ | reflexivity ].
      destruct (strrchr_Some_inv _ _ _ S) as (p & t & -> & _ & _).
      exfalso. now apply (H p t).
Qed.

Lemma substring_app_length (a b : string) (n : nat) :
  substring 0 (String.length a + n) (a ++ b)%string
  = (a ++ substring 0 n b)%string.
Proof.
  induction a as [ | c a IH ]; simpl; [ reflexivity | ]. now rewrite IH.
Qed.

Lemma substring_short (s : string) :
  forall n, String.length s <= n -> substring 0 n s = s.
Proof.
  induction s as [ | c s IH ]; intros [ | n ] H; simpl in *; try reflexivity;
    try lia.
  rewrite IH; [ reflexivity | lia ].
Qed.

Lemma strrchr_substring_None (c : ascii) (s : string) :
  forall n, strrchr s c = None -> strrchr (substring 0 n s) c = None.
Proof.
  induction s as [ | d s IH ]; intros [ | n ] H; simpl in *; try reflexivity.
  destruct (strrchr s c); [ discriminate | ].
  destruct (Ascii.eqb d c); [ discriminate | ].
  now rewrite IH.
Qed.

(** [retbuf] has room for the requested path and 20 characters more. *)
Lemma retbuf_after_created (path prefix seq : string) :
  retbuf_after path prefix (path ++ "/" ++ prefix ++ seq)%string
  = (path ++ "/" ++ prefix ++ substring 0 20 seq)%string.
Proof.
  unfold retbuf_after, strlen.
  replace (path ++ "/" ++ prefix ++ seq)%string
    with ((path ++ "/" ++ prefix) ++ seq)%string
    by (now rewrite <- !string_app_assoc).
  replace (String.length path + String.length prefix + 2 + 20 - 1)
    with (String.length (path ++ "/" ++ prefix)%string + 20)
    by (rewrite !string_length_app; simpl; lia).
  rewrite substring_app_length. now rewrite <- !string_app_assoc.
Qed.

(** X12: a created node is found again.  When no child has the session's
    prefix and the create succeeds with the name the store made from the
    requested path and a sequence suffix without ['/'], the candidate step
    makes that one create and takes for [id] the prefix and as much of the
    suffix as [retbuf] holds, its first 20 characters: the whole of it when
    it is no longer than that, as the ten digits of the store are.  In any
    later enumeration that lists the created name the candidate step finds a
    child with the prefix and makes no create. *)
Theorem created_node_is_found_again :
  forall (zh : zhandle_t) (path : string) (session : Z) (seq : string)
         (vector : list string) (p : process),
    lookupnode vector (session_prefix session) = None ->
    create_reply zh (create_calls p)
    = (ZOK, (path ++ "/" ++ session_prefix session ++ seq)%string) ->
    strrchr seq "/" = None ->
    let r := resolve_candidate zh path (session_prefix session) vector p in
    fst r = Some (Some (session_prefix session ++ substring 0 20 seq)%string) /\
    (String.length seq <= 20 ->
     fst r = Some (Some (session_prefix session ++ seq)%string)) /\
    create_calls (snd r) = S (create_calls p) /\
    trace (snd r)
    = trace p ++ [Zoo_create (path ++ "/" ++ session_prefix session)%string 3] /\
    forall (later : list string) (q : process),
      In (session_prefix session ++ seq)%string later ->
      exists child,
        resolve_candidate zh path (session_prefix session) later q
        = (Some (Some child), q) /\
        begins_with (session_prefix session) child = true.
Proof.
  intros zh path session seq vector p L C Hseq. cbv zeta.
  rewrite (resolve_candidate_absent zh path _ _ p L). cbv zeta.
  rewrite snprintf_buf, C. cbn [fst snd rc_eqb negb].
  rewrite retbuf_after_created.
  assert (G : getName (path ++ "/" ++ session_prefix session
                         ++ substring 0 20 seq)%string
              = Some (session_prefix session ++ substring 0 20 seq)%string).
  { apply getName_path. apply strrchr_app_None.
    - apply strrchr_session_prefix_slash.
    - now apply strrchr_substring_None. }
  rewrite G. split; [ reflexivity | ]. split.
  { intro Hl. now rewrite (substring_short seq 20 Hl). }
  split; [ reflexivity | ]. split; [ reflexivity | ].
  intros later q Hin.
  destruct (lookupnode_finds (session_prefix session) later _
              (cstring_session_prefix session) Hin (begins_with_app _ _))
    as [child Hc].
  exists child. split; [ now apply resolve_candidate_found | ].
  apply (lookupnode_Some _ _ _ (cstring_session_prefix session)) in Hc.
  now destruct Hc as (_ & _ & _ & B & _).
Qed.

Lemma created_node_is_found_again_witness :
  fst (resolve_candidate zk_alone "/lock" (session_prefix 170) [] start)
  = Some (Some (session_prefix 170 ++ substring 0 20 "0000000000")%string) /\
  (String.length "0000000000" <= 20 ->
   fst (resolve_candidate zk_alone "/lock" (session_prefix 170) [] start)
   = Some (Some (session_prefix 170 ++ "0000000000")%string)) /\
  create_calls (snd (resolve_candidate zk_alone "/lock" (session_prefix 170) [] start))
  = S (create_calls start) /\
  trace (snd (resolve_candidate zk_alone "/lock" (session_prefix 170) [] start))
  = trace start ++ [Zoo_create ("/lock" ++ "/" ++ session_prefix 170)%string 3] /\
  forall (later : list string) (q : process),
    In (session_prefix 170 ++ "0000000000")%string later ->
    exists child,
      resolve_candidate zk_alone "/lock" (session_prefix 170) later q
      = (Some (Some child), q) /\
      begins_with (session_prefix 170) child = true.
Proof.
  apply (created_node_is_found_again zk_alone "/lock" 170 "0000000000" [] start);
    reflexivity.
Defined.

(** A sequence suffix of 21 characters does not fit [retbuf]: [id] is the
    created name short of its last character, which is not the name the
    next enumeration lists, and the run closes without holding the lock. *)
Example long_sequence_suffix_is_cut :
  fst (resolve_candidate zk_long_suffix "/lock" (session_prefix 170) [] start)
  = Some (Some "x-00000000000000aa-00000000000000000000") /\
  fst (main zk_long_suffix "/lock" start) = Some 0%Z /\
  trace (snd (main zk_long_suffix "/lock" start))
  = [Zoo_exists "/lock"; Nanosleep ts_init; Zoo_get_children "/lock";
     Zoo_create "/lock/x-00000000000000aa-" 3; Zoo_get_children "/lock";
     Zookeeper_close].
Proof. vm_compute. repeat split. Qed.

(** * Further properties of the directory loop *)

Lemma ensure_loop_counts (zh : zhandle_t) (path : string) (ts : timespec)
    (maxretry : nat) (fuel : nat) :
  forall (e : ZOO_ERRORS) (count : nat) (p p' : process) (r : ZOO_ERRORS * nat),
    count <= maxretry ->
    ensure_loop fuel zh path ts maxretry e count p = (r, p') ->
    snd r <= maxretry /\
    count <= snd r /\
    exists_calls p <= exists_calls p' /\
    create_calls p <= create_calls p' /\
    exists_calls p' + create_calls p'
    = exists_calls p + create_calls p + (snd r - count) /\
    children_calls p' = children_calls p /\
    client_id_calls p' = client_id_calls p /\
    List.length (trace p') = List.length (trace p) + 2 * (snd r - count).
Proof.
  induction fuel as [ | fuel IH ]; intros e count p p' r Hc H.
  - injection H as <- <-. simpl. repeat split; lia.
  - rewrite ensure_loop_S in H.
    destruct ((rc_eqb e ZCONNECTIONLOSS || rc_eqb e ZNONODE) && (count <? maxretry))
      eqn:C.
    + apply andb_prop in C. destruct C as [C1 C2]. apply Nat.ltb_lt in C2.
      cbv zeta in H.
      destruct (rc_eqb e ZCONNECTIONLOSS) eqn:E1;
        [ | destruct (rc_eqb e ZNONODE) eqn:E2; [ | discriminate C1 ] ];
        apply IH in H; try lia;
        cbn [nanosleep emit zoo_exists zoo_create snd exists_calls create_calls
             children_calls client_id_calls trace] in H;
        rewrite ?length_app in H; simpl in H; repeat split; lia.
    + injection H as <- <-. simpl. repeat split; lia.
Qed.

Lemma ensure_loop_no_create (zh : zhandle_t) (path : string) (ts : timespec)
    (maxretry : nat) (fuel : nat) :
  (forall n, exists_reply zh n <> ZNONODE) ->
  forall (e : ZOO_ERRORS) (count : nat) (p p' : process) (r : ZOO_ERRORS * nat),
    e <> ZNONODE ->
    ensure_loop fuel zh path ts maxretry e count p = (r, p') ->
    create_calls p' = create_calls p.
Proof.
  intro Hex. induction fuel as [ | fuel IH ]; intros e count p p' r He H.
  - now injection H as <- <-.
  - rewrite ensure_loop_S in H.
    destruct ((rc_eqb e ZCONNECTIONLOSS || rc_eqb e ZNONODE) && (count <? maxretry)).
    + cbv zeta in H. apply rc_eqb_neq in He. rewrite He in H.
      destruct (rc_eqb e ZCONNECTIONLOSS); apply IH in H; try exact H.
      * apply Hex.
      * now apply rc_eqb_neq.
    + now injection H as <- <-.
Qed.

(** The trace of the directory loop: one [nanosleep] and then one call for
    every retry, a check after a connection loss and a create after "no
    node". *)
Lemma ensure_loop_trace (zh : zhandle_t) (path : string) (ts : timespec)
    (maxretry : nat) (fuel : nat) :
  forall (e : ZOO_ERRORS) (count : nat) (p p' : process) (r : ZOO_ERRORS * nat),
    ensure_loop fuel zh path ts maxretry e count p = (r, p') ->
    exists calls,
      count + List.length calls = snd r /\
      Forall (fun call => call = Zoo_exists path \/ call = Zoo_create path 0) calls /\
      trace p' = trace p ++ flat_map (fun call => [Nanosleep ts; call]) calls /\
      (forall call rest, calls = call :: rest ->
         (e = ZCONNECTIONLOSS /\ call = Zoo_exists path) \/
         (e = ZNONODE /\ call = Zoo_create path 0)).
Proof.
  induction fuel as [ | fuel IH ]; intros e count p p' r H.
  - injection H as <- <-. exists []. simpl. rewrite app_nil_r.
    repeat split; [ lia | constructor | discriminate ].
  - rewrite ensure_loop_S in H.
    destruct ((rc_eqb e ZCONNECTIONLOSS || rc_eqb e ZNONODE) && (count <? maxretry))
      eqn:C.
    + apply andb_prop in C. destruct C as [C1 _]. cbv zeta in H.
      destruct (rc_eqb e ZCONNECTIONLOSS) eqn:E1;
        [ | destruct (rc_eqb e ZNONODE) eqn:E2; [ | discriminate C1 ] ];
        apply IH in H; destruct H as (calls & Hl & Hk & Ht & _).
      * exists (Zoo_exists path :: calls). split; [ simpl; lia | ].
        split; [ constructor; [ now left | exact Hk ] | ]. split.
        -- rewrite Ht. simpl. now rewrite <- !app_assoc.
        -- intros call rest Eq. injection Eq as <- _. left.
           split; [ now apply rc_eqb_eq | reflexivity ].
      * exists (Zoo_create path 0 :: calls). split; [ simpl; lia | ].
        split; [ constructor; [ now right | exact Hk ] | ]. split.
        -- rewrite Ht. simpl. now rewrite <- !app_assoc.
        -- intros call rest Eq. injection Eq as <- _. right.
           split; [ now apply rc_eqb_eq | reflexivity ].
    + injection H as <- <-. exists []. simpl. rewrite app_nil_r.
      repeat split; [ lia | constructor | discriminate ].
Qed.

(** X13: the directory loop is bounded and makes one call per retry.  It
    makes at most [maxretry] retries and no enumeration, and what it adds to
    the trace is, for every retry in turn, the [nanosleep] and then the one
    call of that retry, [zoo_exists] or [zoo_create] of the directory with no
    flags: the sleep comes before the call, and the first retry checks again
    after a connection loss and creates after "no node".  The loop stops
    before the budget is used up only on a result that is neither a
    connection loss nor "no node".  A first check with any such result, [ZOK]
    or an error alike, ends it at once with nothing done.  The directory is
    never created unless a check has reported it absent. *)
Theorem directory_loop_is_bounded :
  forall (zh : zhandle_t) (path : string) (ts : timespec) (maxretry : nat)
         (e : ZOO_ERRORS) (p : process),
    let r := fst (ensure_loop (S maxretry) zh path ts maxretry e 0 p) in
    let p' := snd (ensure_loop (S maxretry) zh path ts maxretry e 0 p) in
    snd r <= maxretry /\
    exists_calls p' + create_calls p' = exists_calls p + create_calls p + snd r /\
    children_calls p' = children_calls p /\
    (exists calls,
        List.length calls = snd r /\
        Forall (fun call => call = Zoo_exists path \/ call = Zoo_create path 0)
          calls /\
        trace p' = trace p ++ flat_map (fun call => [Nanosleep ts; call]) calls /\
        (forall call rest, calls = call :: rest ->
           (e = ZCONNECTIONLOSS /\ call = Zoo_exists path) \/
           (e = ZNONODE /\ call = Zoo_create path 0))) /\
    (snd r < maxretry -> fst r <> ZCONNECTIONLOSS /\ fst r <> ZNONODE) /\
    (e <> ZCONNECTIONLOSS -> e <> ZNONODE -> r = (e, 0) /\ p' = p) /\
    (e <> ZNONODE -> (forall n, exists_reply zh n <> ZNONODE) ->
     create_calls p' = create_calls p).
Proof.
  intros zh path ts maxretry e p. cbv zeta.
  destruct (ensure_loop (S maxretry) zh path ts maxretry e 0 p) as [r p'] eqn:H.
  cbn [fst snd].
  pose proof (ensure_loop_counts _ _ _ _ _ _ _ _ _ _ (Nat.le_0_l _) H)
    as (H1 & _ & _ & _ & H2 & H3 & _ & _).
  pose proof (ensure_loop_trace _ _ _ _ _ _ _ _ _ _ H) as (calls & Hl & Hk & Ht & Hf1).
  assert (Hf : (fst r <> ZCONNECTIONLOSS /\ fst r <> ZNONODE) \/ maxretry <= snd r).
  { apply (ensure_loop_fuel zh path ts maxretry (S maxretry) e 0 p p'); [ lia | exact H ]. }
  split; [ exact H1 | ]. split; [ lia | ]. split; [ exact H3 | ]. split.
  { exists calls. repeat split; try assumption. }
  split; [ intro Hlt; destruct Hf as [Hf | Hf]; [ exact Hf | lia ] | ].
  split.
  - intros N1 N2. rewrite ensure_loop_S in H.
    apply rc_eqb_neq in N1, N2. rewrite N1, N2 in H. simpl in H.
    injection H as <- <-. now split.
  - intros N Hex. now apply (ensure_loop_no_create _ _ _ _ _ Hex _ _ _ _ _ N H).
Qed.

(** * Further properties of the lock loop and of [main] *)

Section Counts.

Variable zh : zhandle_t.
Variable path : string.
Variable ts : timespec.
Variable maxretry : nat.

Lemma retry_getchildren_calls (retry : nat) (vector : list string)
    (p p' : process) (r : ZOO_ERRORS * list string) :
  retry_getchildren zh path vector ts retry p = (r, p') ->
  children_calls p <= children_calls p' <= children_calls p + retry.
Proof.
  destruct (retry_getchildren_runs zh path ts retry vector p) as (k & Hle & _ & _ & E).
  rewrite E. clear E. destruct (k <? retry) eqn:Hk; cbv zeta;
    intro H; injection H as _ <-; simpl.
  - apply Nat.ltb_lt in Hk. lia.
  - lia.
Qed.

Lemma resolve_candidate_counts (prefix : string) (vector : list string)
    (p p' : process) (c : option (option string)) :
  resolve_candidate zh path prefix vector p = (c, p') ->
  exists_calls p' = exists_calls p /\
  children_calls p' = children_calls p /\
  client_id_calls p' = client_id_calls p /\
  create_calls p <= create_calls p' <= S (create_calls p).
Proof.
  destruct (lookupnode vector prefix) as [ i | ] eqn:L.
  - rewrite (resolve_candidate_found zh path _ _ _ p L).
    intro H. injection H as _ <-. repeat split; lia.
  - rewrite (resolve_candidate_absent zh path _ _ p L). cbv zeta.
    destruct (negb (rc_eqb (fst (create_reply zh (create_calls p))) ZOK));
      intro H; injection H as _ <-; simpl; repeat split; lia.
Qed.

Lemma decide_counts (i : string) (vars : locals) (p p' : process)
    (r : control * locals) :
  decide zh path ts maxretry i vars p = (r, p') ->
  exists_calls p' = exists_calls p /\
  create_calls p' = create_calls p /\
  client_id_calls p' = client_id_calls p /\
  children_calls p <= children_calls p' <= children_calls p + maxretry.
Proof.
  rewrite decide_eq. cbv zeta.
  destruct (retry_getchildren zh path [] ts maxretry p) as [g p1] eqn:R.
  pose proof (retry_getchildren_calls _ _ _ _ _ R) as Hch.
  apply retry_getchildren_frame in R. destruct R as (He & Hc & Hi & _ & _).
  cbn [fst snd].
  destruct (negb (rc_eqb (fst g) ZOK)).
  - intro H. injection H as _ <-. simpl. repeat split; lia.
  - destruct (sort_children (snd g)) as [ [ | first rest ] | ];
      [ | destruct (child_floor (first :: rest) i) | ];
      intro H; injection H as _ <-; simpl; repeat split; lia.
Qed.

Lemma lock_attempt_counts (vars : locals) (p p' : process) (r : control * locals) :
  lock_attempt zh path ts maxretry vars p = (r, p') ->
  exists_calls p' = exists_calls p /\
  create_calls p <= create_calls p' <= S (create_calls p) /\
  client_id_calls p' = S (client_id_calls p) /\
  children_calls p <= children_calls p' <= children_calls p + 2 * maxretry.
Proof.
  rewrite lock_attempt_eq. cbv zeta.
  destruct (retry_getchildren zh path [] ts maxretry (snd (zoo_client_id zh p)))
    as [g p1] eqn:R.
  pose proof (retry_getchildren_calls _ _ _ _ _ R) as Hch.
  apply retry_getchildren_frame in R. destruct R as (He & Hc & Hi & _ & _).
  cbn [zoo_client_id snd exists_calls create_calls client_id_calls children_calls]
    in He, Hc, Hi, Hch.
  cbn [fst snd].
  destruct (negb (rc_eqb (fst g) ZOK)).
  - intro H. injection H as _ <-. simpl. repeat split; lia.
  - destruct (resolve_candidate zh path
                (session_prefix (client_id_reply zh (client_id_calls p)))
                (snd g) p1) as [cand p2] eqn:C.
    apply resolve_candidate_counts in C. destruct C as (Ce & Cc & Ci & Cr).
    cbn [fst snd].
    destruct cand as [ [ i | ] | ].
    + intro H. apply decide_counts in H. destruct H as (De & Dc & Di & Dh).
      repeat split; lia.
    + intro H. injection H as _ <-. repeat split; lia.
    + intro H. injection H as _ <-. repeat split; lia.
Qed.

Lemma lock_loop_counts (fuel : nat) :
  forall (count count' : nat) (vars vars' : locals) (p p' : process) (c : control),
    lock_loop fuel zh path ts maxretry count vars p = ((c, count', vars'), p') ->
    count <= count' /\
    (count <= maxretry -> count' <= maxretry) /\
    exists_calls p' = exists_calls p /\
    create_calls p <= create_calls p' <= create_calls p + (count' - count) /\
    client_id_calls p' = client_id_calls p + (count' - count) /\
    children_calls p <= children_calls p'
    <= children_calls p + 2 * maxretry * (count' - count).
Proof.
  induction fuel as [ | fuel IH ]; intros count count' vars vars' p p' c H.
  - injection H as <- <- <- <-. repeat split; lia.
  - rewrite lock_loop_S in H. destruct (count <? maxretry) eqn:C.
    + apply Nat.ltb_lt in C. cbv zeta in H.
      destruct (lock_attempt zh path ts maxretry vars (snd (nanosleep ts p)))
        as [[c1 v1] p1] eqn:A.
      apply lock_attempt_counts in A. destruct A as (Ae & Ac & Ai & Ah).
      cbn [nanosleep emit snd exists_calls create_calls client_id_calls
           children_calls] in Ae, Ac, Ai, Ah.
      cbn [fst snd] in H.
      destruct c1.
      * apply IH in H. destruct H as (H1 & H2 & H3 & H4 & H5 & H6).
        repeat split; try lia; nia.
      * injection H as <- <- <- <-. repeat split; try lia; nia.
      * injection H as <- <- <- <-. repeat split; try lia; nia.
      * injection H as <- <- <- <-. repeat split; try lia; nia.
    + injection H as <- <- <- <-. repeat split; lia.
Qed.

End Counts.

(** X14: a run is bounded.  Whatever the server replies, [main] makes at
    most 6 existence checks, at most 10 creates (5 for the directory, one per
    round of the lock loop), at most 50 enumerations (two bounded retries of 5
    in each of 5 rounds) and reads the session id at most 5 times. *)
Theorem main_makes_boundedly_many_calls :
  forall (zh : zhandle_t) (path : string),
    let p' := snd (main zh path start) in
    exists_calls p' <= 6 /\
    create_calls p' <= 10 /\
    exists_calls p' + create_calls p' <= 11 /\
    children_calls p' <= 50 /\
    client_id_calls p' <= 5.
Proof.
  intros zh path. cbv zeta. destruct (init_reply zh) as [ | errno ] eqn:I.
  - rewrite (main_handle zh path start I). cbv zeta.
    destruct (ensure_loop 6 zh path ts_init 5 (exists_reply zh (exists_calls start)) 0
                (snd (zoo_exists zh path start))) as [d p1] eqn:D.
    apply ensure_loop_counts in D; [ | lia ].
    destruct D as (D1 & _ & D2 & D3 & D4 & D5 & D6 & _).
    cbn [zoo_exists start snd exists_calls create_calls children_calls
         client_id_calls] in D2, D3, D4, D5, D6.
    cbn [fst snd]. destruct (5 <=? snd d).
    + simpl. lia.
    + destruct (lock_loop 6 zh path ts_init 5 0 {| id := None; ownerid := None |} p1)
        as [[[c n2] v2] p2] eqn:L.
      apply lock_loop_counts in L. destruct L as (_ & L1 & L2 & L3 & L4 & L5).
      specialize (L1 ltac:(lia)).
      assert (Final : exists_calls p2 <= 6 /\ create_calls p2 <= 10 /\
                      exists_calls p2 + create_calls p2 <= 11 /\
                      children_calls p2 <= 50 /\ client_id_calls p2 <= 5)
        by (repeat split; lia).
      cbn [fst snd].
      destruct c; try exact Final;
        try (destruct (5 <=? n2); [ exact Final | ];
             destruct (id v2); [ | exact Final ];
             destruct (ownerid v2); [ | exact Final ];
             destruct (negb (strcmp s s0 =? 0)%Z); exact Final).
  - rewrite (main_null zh path errno start I). simpl. lia.
Qed.

Section Break.

Variable zh : zhandle_t.
Variable path : string.
Variable ts : timespec.
Variable maxretry : nat.

(** A call of [retry_getchildren] that succeeds: connection losses, then the
    reply it hands back. *)
Lemma retry_getchildren_ok (vector : list string) (p p' : process)
    (r : ZOO_ERRORS * list string) :
  retry_getchildren zh path vector ts maxretry p = (r, p') ->
  fst r = ZOK ->
  exists k,
    children_calls p' = S (children_calls p + k) /\
    (forall j, j < k ->
       fst (children_reply zh (children_calls p + j)) = ZCONNECTIONLOSS) /\
    children_reply zh (children_calls p + k) = (ZOK, snd r).
Proof.
  destruct (retry_getchildren_runs zh path ts maxretry vector p)
    as (k & Hle & Hl & Hn & E).
  rewrite E. clear E. destruct (k <? maxretry); cbv zeta;
    intros H Hok; injection H as <- <-; cbn [fst snd] in *; [ | discriminate Hok ].
  exists k. cbn [after_losses children_calls zoo_get_children snd] in *.
  split; [ reflexivity | ]. split; [ exact Hl | ].
  rewrite Hok. cbn [rc_eqb].
  destruct (children_reply zh (children_calls p + k)) as [rc v].
  cbn [fst snd] in *. now subst rc.
Qed.

(** What the decision step has decided when it does not end in
    [continue]. *)
Lemma decide_decision (i : string) (vars vars' : locals) (p p' : process)
    (c : control) :
  decide zh path ts maxretry i vars p = ((c, vars'), p') ->
  c <> Continue ->
  exists k vector,
    children_calls p' = S (children_calls p + k) /\
    (forall j, j < k ->
       fst (children_reply zh (children_calls p + j)) = ZCONNECTIONLOSS) /\
    children_reply zh (children_calls p + k) = (ZOK, vector) /\
    create_calls p' = create_calls p /\
    client_id_calls p' = client_id_calls p /\
    round_decision path c vars' p' vector i.
Proof.
  intros H Hc. rewrite decide_eq in H. cbv zeta in H.
  destruct (retry_getchildren zh path [] ts maxretry p) as [g p1] eqn:R.
  pose proof (retry_getchildren_frame _ _ _ _ _ _ _ _ R) as (_ & Cc & Ci & _ & _).
  cbn [fst snd] in H.
  destruct (rc_eqb (fst g) ZOK) eqn:E; cbn [negb] in H;
    [ | injection H as <- _ _; contradiction ].
  apply rc_eqb_eq in E.
  destruct (retry_getchildren_ok _ _ _ _ R E) as (k & Hk & Hl & Hr).
  exists k, (snd g).
  destruct (sort_children (snd g)) as [ [ | first rest ] | ] eqn:S.
  - injection H as <- <- <-. repeat split; try assumption. now right.
  - destruct (child_floor (first :: rest) i) as [ l | ] eqn:F;
      injection H as <- <- <-; repeat split; try assumption.
    + exists (first :: rest), l, (trace p1). repeat split; assumption.
    + exists first, rest. repeat split; assumption.
  - injection H as <- <- <-. repeat split; try assumption. now left.
Qed.

(** A round that does not end in [continue] has resolved a name and decided
    on an enumeration, and these can be read off the state it ends in. *)
Lemma lock_attempt_decision (vars vars' : locals) (p p' : process) (c : control) :
  lock_attempt zh path ts maxretry vars p = ((c, vars'), p') ->
  c <> Continue ->
  exists vector i,
    decided_on zh path p' vector i /\ round_decision path c vars' p' vector i.
Proof.
  intros H Hc. rewrite lock_attempt_eq in H. cbv zeta in H.
  destruct (retry_getchildren zh path [] ts maxretry (snd (zoo_client_id zh p)))
    as [g p1] eqn:R.
  pose proof (retry_getchildren_frame _ _ _ _ _ _ _ _ R) as (_ & Cc & Ci & _ & _).
  cbn [zoo_client_id snd create_calls client_id_calls] in Cc, Ci.
  cbn [fst snd] in H.
  destruct (rc_eqb (fst g) ZOK) eqn:E; cbn [negb] in H;
    [ | injection H as <- _ _; contradiction ].
  apply rc_eqb_eq in E.
  destruct (retry_getchildren_ok _ _ _ _ R E) as (k1 & Hk1 & Hl1 & Hr1).
  cbn [zoo_client_id snd children_calls] in Hk1, Hl1, Hr1.
  destruct (resolve_candidate zh path
              (session_prefix (client_id_reply zh (client_id_calls p)))
              (snd g) p1) as [cand p2] eqn:C.
  cbn [fst snd] in H.
  destruct cand as [ [ i | ] | ];
    [ | injection H as <- _ _; contradiction
      | injection H as <- _ _; contradiction ].
  pose proof (resolve_candidate_counts _ _ _ _ _ _ _ C) as (_ & Rh & Ri & _).
  apply resolve_candidate_Some in C.
  destruct (decide_decision _ _ _ _ _ _ H Hc)
    as (k2 & vector & Hk2 & Hl2 & Hr2 & Dc & Di & Dec).
  exists vector, i. split; [ | exact Dec ].
  exists (children_calls p + k1), (children_calls p2 + k2), (client_id_calls p).
  split; [ now rewrite Hk2 | ]. split; [ lia | ]. split; [ lia | ].
  split; [ now rewrite Hr1 | ]. split.
  { intros m Hm1 Hm2.
    replace m with (children_calls p2 + (m - children_calls p2)) by lia.
    apply Hl2. lia. }
  split; [ exact Hr2 | ]. cbv zeta. rewrite Hr1. cbn [snd].
  destruct C as [ [L _] | (L & C1 & C2 & C3 & _) ]; [ now left | right ].
  split; [ exact L | ]. exists (create_calls p1).
  split; [ lia | ]. now split.
Qed.

Lemma lock_loop_decision (fuel : nat) :
  forall (count count' : nat) (vars vars' : locals) (p p' : process) (c : control),
    lock_loop fuel zh path ts maxretry count vars p = ((c, count', vars'), p') ->
    c <> Continue ->
    exists vector i,
      decided_on zh path p' vector i /\ round_decision path c vars' p' vector i.
Proof.
  induction fuel as [ | fuel IH ]; intros count count' vars vars' p p' c H Hc.
  - injection H as <- _ _ _. contradiction.
  - rewrite lock_loop_S in H. destruct (count <? maxretry);
      [ | injection H as <- _ _ _; contradiction ].
    cbv zeta in H.
    destruct (lock_attempt zh path ts maxretry vars (snd (nanosleep ts p)))
      as [[c1 v1] p1] eqn:A.
    cbn [fst snd] in H. destruct c1.
    + now apply IH in H.
    + injection H as <- _ <- <-. now apply (lock_attempt_decision _ _ _ _ _ A).
    + injection H as <- _ <- <-. now apply (lock_attempt_decision _ _ _ _ _ A).
    + injection H as <- _ <- <-. now apply (lock_attempt_decision _ _ _ _ _ A).
Qed.

(** A round whose enumeration cannot succeed ends in [continue] with nothing
    created and the locals as they were. *)
Lemma lock_attempt_without_children (vars : locals) (p : process) :
  (forall n, fst (children_reply zh n) <> ZOK) ->
  fst (lock_attempt zh path ts maxretry vars p) = (Continue, vars) /\
  create_calls (snd (lock_attempt zh path ts maxretry vars p)) = create_calls p /\
  client_id_calls (snd (lock_attempt zh path ts maxretry vars p))
  = S (client_id_calls p) /\
  emits (quiet ts) p (snd (lock_attempt zh path ts maxretry vars p)).
Proof.
  intro Hno. rewrite lock_attempt_eq. cbv zeta.
  destruct (retry_getchildren zh path [] ts maxretry (snd (zoo_client_id zh p)))
    as [g p1] eqn:R.
  apply retry_getchildren_frame in R. destruct R as (_ & Hc & Hi & He & Hv).
  cbn [fst snd].
  destruct (rc_eqb (fst g) ZOK) eqn:E; cbn [negb].
  - exfalso. apply rc_eqb_eq in E. destruct (Hv E) as (k & Hk & _).
    now apply (Hno k).
  - cbn [fst snd]. split; [ reflexivity | ]. split; [ exact Hc | ].
    split; [ exact Hi | ].
    eapply emits_trans; [ apply (emits_zoo_client_id zh) | ].
    eapply emits_trans; [ exact He | ]. apply emits_emit. now left.
Qed.

Lemma lock_loop_without_children (fuel : nat) :
  (forall n, fst (children_reply zh n) <> ZOK) ->
  forall (count : nat) (vars : locals) (p : process),
    count <= maxretry -> maxretry < fuel + count ->
    fst (lock_loop fuel zh path ts maxretry count vars p)
    = (Continue, maxretry, vars) /\
    create_calls (snd (lock_loop fuel zh path ts maxretry count vars p))
    = create_calls p /\
    client_id_calls (snd (lock_loop fuel zh path ts maxretry count vars p))
    = client_id_calls p + (maxretry - count) /\
    emits (quiet ts) p (snd (lock_loop fuel zh path ts maxretry count vars p)).
Proof.
  intro Hno. induction fuel as [ | fuel IH ]; intros count vars p Hc Hf; [ lia | ].
  rewrite lock_loop_S. destruct (count <? maxretry) eqn:C.
  - apply Nat.ltb_lt in C. cbv zeta.
    destruct (lock_attempt_without_children vars (snd (nanosleep ts p)) Hno)
      as (A1 & A2 & A3 & A4).
    rewrite A1. cbn [fst snd].
    destruct (IH (S count) vars
                (snd (lock_attempt zh path ts maxretry vars (snd (nanosleep ts p))))
                ltac:(lia) ltac:(lia)) as (L1 & L2 & L3 & L4).
    split; [ exact L1 | ]. split; [ now rewrite L2, A2 | ].
    split; [ rewrite L3, A3; simpl; lia | ].
    eapply emits_trans; [ apply emits_nanosleep | ].
    eapply emits_trans; eassumption.
  - apply Nat.ltb_ge in C. cbn [fst snd].
    replace maxretry with count by lia.
    repeat split; try lia. apply emits_refl.
Qed.

End Break.

Lemma Forall_in {A : Type} (Q : A -> Prop) (l : list A) (e : A) :
  Forall Q l -> In e l -> Q e.
Proof. intros F H. rewrite Forall_forall in F. now apply F. Qed.

Lemma emits_all (Q : event -> Prop) (p q : process) :
  emits Q p q -> (forall e, In e (trace p) -> Q e) ->
  forall e, In e (trace q) -> Q e.
Proof.
  intros (evs & Ht & Hq) Hp e Hin. rewrite Ht in Hin.
  apply in_app_or in Hin. destruct Hin as [Hin | Hin]; [ now apply Hp | ].
  now apply (Forall_in Q evs).
Qed.

(** X15: every run with a handle ends one way.  Unless it runs into
    undefined behaviour, the trace is a stretch of quiet events (calls to the
    server, retry sleeps, complaints about a round), then at most one mark of
    an outcome, then the close of the handle, which is the last event and the
    only close; the exit status is 0.  Nothing is printed on stdout but the
    one ["LOCKED: "] line of the blocked outcome.  Without a handle nothing
    happens at all. *)
Theorem every_run_ends_one_way :
  forall (zh : zhandle_t) (path : string),
    match init_reply zh with
    | Null _ => trace (snd (main zh path start)) = []
    | Handle =>
        (fst (main zh path start) = None /\
         Forall (quiet ts_init) (trace (snd (main zh path start)))) \/
        (fst (main zh path start) = Some 0%Z /\
         exists evs ending,
           trace (snd (main zh path start)) = evs ++ ending ++ [Zookeeper_close] /\
           Forall (quiet ts_init) evs /\
           ~ In Zookeeper_close (evs ++ ending) /\
           (forall format arg, ~ In (Printf format arg) evs) /\
           (ending = [] \/ ending = [holds_lock] \/
            ending = [msg_exhausted path] \/ ending = [msg_no_directory path] \/
            exists last_child, ending = [msg_blocked last_child]))
    end.
Proof.
  intros zh path. destruct (init_reply zh) as [ | errno ] eqn:I.
  - destruct (main zh path start) as [status p'] eqn:M.
    apply (main_spec zh path status p' I) in M.
    destruct M as (evs & Hq & M). cbn [fst snd].
    assert (NoClose : forall ending,
               (forall e, In e ending -> e <> Zookeeper_close) ->
               ~ In Zookeeper_close (evs ++ ending)).
    { intros ending He Hin. apply in_app_or in Hin. destruct Hin as [Hin | Hin].
      - apply (quiet_in _ _ _ Hq) in Hin. exact Hin.
      - now apply (He _ Hin). }
    assert (NoPrintf : forall format arg, ~ In (Printf format arg) evs).
    { intros format arg Hin. apply (quiet_in _ _ _ Hq) in Hin. exact Hin. }
    destruct M as [ [-> ->] | [ (-> & x & ->) | [ [-> ->] | [ [-> ->]
                  | [ [-> ->] | [-> ->] ] ] ] ] ].
    all: try (right; split; [ reflexivity | ]).
    + exists evs, [msg_no_directory path]. repeat split; auto.
      apply NoClose. intros e [ <- | [] ]. discriminate.
    + exists evs, [msg_blocked x]. repeat split; auto.
      * apply NoClose. intros e [ <- | [] ]. discriminate.
      * do 4 right. now exists x.
    + exists evs, [msg_exhausted path]. repeat split; auto.
      apply NoClose. intros e [ <- | [] ]. discriminate.
    + exists evs, []. repeat split; auto; try (apply NoClose; intros e []).
    + exists evs, [holds_lock]. repeat split; auto.
      apply NoClose. intros e [ <- | [] ]. discriminate.
    + left. now split.
  - now rewrite (main_null zh path errno start I).
Qed.

(** Every run with a handle has one of the six outcomes, and those that come
    out of a decision went by the enumeration and the name of the round that
    decided. *)
Lemma main_decides (zh : zhandle_t) (path : string) (status : option Z)
    (p' : process) :
  init_reply zh = Handle ->
  main zh path start = (status, p') ->
  main_outcome zh path status p'.
Proof.
  intros Hi H. rewrite (main_handle _ _ _ Hi) in H. cbv zeta in H.
  match type of H with context [ensure_loop ?f ?a ?b ?c ?d ?e ?g ?q] =>
    destruct (ensure_loop f a b c d e g q) as [[e1 n1] p1] eqn:D end.
  apply ensure_loop_quiet in D. destruct D as [D _].
  assert (D0 : emits (quiet ts_init) start p1).
  { eapply emits_trans; [ apply (emits_zoo_exists zh) | exact D ]. }
  clear D. destruct D0 as (ev1 & Ht1 & Hq1). cbn [fst snd] in H.
  change (trace start) with (@nil event) in Ht1. cbn [app] in Ht1.
  destruct (5 <=? n1).
  { injection H as <- <-. exists ev1. split; [ exact Hq1 | ]. left.
    split; [ reflexivity | ]. simpl. now rewrite Ht1, <- app_assoc. }
  destruct (lock_loop 6 zh path ts_init 5 0 {| id := None; ownerid := None |} p1)
    as [[[c n2] v2] p2] eqn:L.
  pose proof (lock_loop_shape _ _ _ _ _ _ _ _ _ _ _ _ L) as (ev2 & Hq2 & Ht2).
  pose proof (lock_loop_decision _ _ _ _ _ _ _ _ _ _ _ _ L) as Dec.
  cbn [fst snd] in H.
  assert (Hq : Forall (quiet ts_init) (ev1 ++ ev2)) by (apply Forall_app; now split).
  exists (ev1 ++ ev2). split; [ exact Hq | ].
  destruct c.
  - assert (H5 : 5 <= n2).
    { apply (lock_loop_fuel zh path ts_init 5 6 0 n2
               {| id := None; ownerid := None |} v2 p1 p2); [ lia | exact L ]. }
    apply Nat.leb_le in H5. rewrite H5 in H. injection H as <- <-.
    right. right. left. split; [ reflexivity | ].
    simpl. now rewrite Ht2, Ht1, <- app_assoc.
  - destruct (Dec ltac:(discriminate))
      as (vector & i & Don & first & rest & S & F & ->).
    assert (Ht : trace p2 = ev1 ++ ev2) by (now rewrite Ht2, Ht1).
    destruct (5 <=? n2).
    + injection H as <- <-. right. right. left. split; [ reflexivity | ].
      simpl. now rewrite Ht, <- app_assoc.
    + cbn [id ownerid] in H.
      destruct (strcmp i first =? 0)%Z eqn:Z0; cbn [negb] in H;
        injection H as <- <-.
      * right. right. right. right. left. split; [ reflexivity | ]. split.
        -- exists vector, i, first, rest. split; [ exact Don | ].
           split; [ exact S | ]. split; [ exact F | now apply Z.eqb_eq ].
        -- simpl. now rewrite Ht, <- app_assoc.
      * right. right. right. left. split; [ reflexivity | ].
        simpl. now rewrite Ht.
  - destruct (Dec ltac:(discriminate))
      as (vector & i & Don & sorted & l & tr & S & F & Tr).
    destruct Ht2 as (x & Ht2). injection H as <- <-.
    assert (Ex : x = (path ++ "/" ++ l)%string).
    { rewrite Ht2, !app_assoc in Tr. apply app_inj_tail in Tr.
      destruct Tr as [_ Tr]. now injection Tr. }
    subst x. right. left. split; [ reflexivity | ].
    exists vector, i, sorted, l. split; [ exact Don | ].
    split; [ exact S | ]. split; [ exact F | ].
    simpl. now rewrite Ht2, Ht1, <- !app_assoc.
  - destruct (Dec ltac:(discriminate)) as (vector & i & Don & Cause).
    injection H as <- <-. right. right. right. right. right.
    split; [ reflexivity | ]. split.
    + exists vector, i. now split.
    + now rewrite Ht2, Ht1.
Qed.


(** * The round that ends the run *)

(** The state at the end of a run fixes the enumeration decided on and the
    name resolved. *)
Lemma decided_on_functional (zh : zhandle_t) (path : string) (p' : process)
    (v1 v2 : list string) (i1 i2 : string) :
  decided_on zh path p' v1 i1 -> decided_on zh path p' v2 i2 ->
  v1 = v2 /\ i1 = i2.
Proof.
  intros (j1 & k1 & n1 & K1 & N1 & J1 & O1 & L1 & R1 & I1)
         (j2 & k2 & n2 & K2 & N2 & J2 & O2 & L2 & R2 & I2).
  assert (k2 = k1) by lia. assert (n2 = n1) by lia. subst k2 n2.
  assert (j2 = j1).
  { destruct (Nat.lt_trichotomy j1 j2) as [Lt | [E | Lt]]; [ | now symmetry | ].
    - rewrite (L1 j2 Lt J2) in O2. discriminate O2.
    - rewrite (L2 j1 Lt J1) in O1. discriminate O1. }
  subst j2. rewrite R1 in R2. injection R2 as <-. split; [ reflexivity | ].
  cbv zeta in I1, I2.
  destruct I1 as [I1 | (I1 & c1 & C1 & _ & G1)],
           I2 as [I2 | (I2 & c2 & C2 & _ & G2)]; congruence.
Qed.

(** Where no two entries tie, the comparator leaves one order only: whatever
    [qsort] does inside, it ends with this one. *)
Lemma ordered_permutation_unique (vector : list string) :
  distinct_suffixes vector -> Forall cstring vector ->
  forall s1 s2,
    Permutation vector s1 -> Sorted vle s1 ->
    Permutation vector s2 -> Sorted vle s2 ->
    s1 = s2.
Proof.
  intros [Hnd Htie] Hc s1 s2 P1 S1 P2 S2.
  assert (Anti : forall a b, In a s1 -> In b s1 -> vle a b -> vle b a -> a = b).
  { intros a b Ha Hb (c & V & Lc) (d & W & Ld).
    apply (Permutation_in _ (Permutation_sym P1)) in Ha, Hb.
    apply Htie; try assumption.
    apply vstrcmp_antisym in V. rewrite V in W. injection W as <-.
    apply vstrcmp_antisym in V. rewrite V. f_equal. lia. }
  assert (N1 : NoDup s1) by (eapply Permutation_NoDup; eassumption).
  assert (P : Permutation s1 s2)
    by (eapply Permutation_trans; [ apply Permutation_sym | ]; eassumption).
  assert (T : forall a b c, cstring a -> cstring b -> vle a b -> vle b c -> vle a c)
    by (intros a b c; apply vle_trans).
  apply (Sorted_strong_on vle cstring T) in S1;
    [ | exact (Permutation_Forall P1 Hc) ].
  apply (Sorted_strong_on vle cstring T) in S2;
    [ | exact (Permutation_Forall P2 Hc) ].
  clear P1 P2 Hnd Htie Hc T vector.
  revert s2 P S2. induction s1 as [ | x t IH ]; intros s2 P S2.
  - apply Permutation_nil in P. now subst.
  - destruct s2 as [ | y u ];
      [ apply Permutation_sym, Permutation_nil in P; discriminate | ].
    inversion S1 as [ | ? ? St Fx ]; subst.
    inversion S2 as [ | ? ? Su Fy ]; subst.
    assert (E : x = y).
    { destruct (string_dec x y) as [E | N]; [ exact E | ].
      assert (Hy : In y t).
      { assert (Hy : In y (x :: t))
          by (apply (Permutation_in _ (Permutation_sym P)); now left).
        destruct Hy as [Hy | Hy]; [ contradiction | exact Hy ]. }
      assert (Hx : In x u).
      { assert (Hx : In x (y :: u)) by (apply (Permutation_in _ P); now left).
        destruct Hx as [Hx | Hx]; [ now subst | exact Hx ]. }
      apply Anti; [ now left | now right | | ].
      - rewrite Forall_forall in Fx. now apply Fx.
      - rewrite Forall_forall in Fy. now apply Fy. }
    subst y. f_equal. apply Permutation_cons_inv in P.
    apply IH; try assumption.
    + intros a b Ha Hb. apply Anti; now right.
    + now inversion N1.
Qed.

(** The vectors line 286-288 cannot handle: none at all, or two or more of
    which one has no ['-']. *)
Lemma sort_children_fails (vector : list string) :
  sort_children vector = None \/ sort_children vector = Some [] ->
  vector = [] \/
  (2 <= List.length vector /\ Exists (fun name => strrchr name "-" = None) vector).
Proof.
  intros [H | H].
  - right.
    assert (Hl : 2 <= List.length vector).
    { destruct vector as [ | x [ | y rest ] ]; try discriminate H; simpl; lia. }
    split; [ exact Hl | ].
    destruct (Forall_Exists_dec has_dash has_dash_dec vector) as [F | E].
    + assert (F' : Forall (fun name => seq_suffix name <> None) vector).
      { eapply Forall_impl; [ | exact F ]. intros name N.
        unfold has_dash in N. unfold seq_suffix.
        destruct (strrchr name "-"); [ discriminate | contradiction ]. }
      destruct (sort_children_defined vector F') as [s Hs]. congruence.
    + eapply Exists_impl; [ | exact E ]. intros name N. unfold has_dash in N.
      destruct (strrchr name "-"); [ | reflexivity ].
      exfalso. apply N. discriminate.
  - left. apply sort_children_Permutation in H. now apply Permutation_nil.
Qed.

(** C4, amended: in every run that prints the ["LOCKED: "] line, the exit
    status is 0 and the name printed is the path of [child_floor] of the
    program's own name in the sorted enumeration, where both are those of
    the round that printed the line: the enumeration is the reply to the
    last enumeration call of the run, ordered by [vstrcmp] as [qsort] left
    it, and the own name is the one that round resolved, found by
    [lookupnode] in the round's first enumeration or read from [retbuf]
    after its create.  The floor is the last entry of the sorted
    enumeration that [strcmp] on the full names puts below the own name.
    Where no two children tie, the sorted enumeration is the one the
    comparator fixes. *)
Theorem blocked_reports_the_floor :
  forall (zh : zhandle_t) (path : string) (status : option Z)
         (p' : process) (last_child : string),
    main zh path start = (status, p') ->
    In (msg_blocked last_child) (trace p') ->
    status = Some 0%Z /\
    exists vector i sorted lessthanme,
      decided_on zh path p' vector i /\
      Permutation vector sorted /\
      Sorted vle sorted /\
      (distinct_suffixes vector -> Forall cstring vector ->
       sort_children vector = Some sorted) /\
      child_floor sorted i = Some lessthanme /\
      last_below sorted i lessthanme /\
      last_child = (path ++ "/" ++ lessthanme)%string.
Proof.
  intros zh path status p' last_child H Hin.
  destruct (init_reply zh) as [ | errno ] eqn:I.
  - apply (main_decides zh path status p' I) in H.
    destruct H as (evs & Hq & H).
    assert (Quiet : ~ In (msg_blocked last_child) evs).
    { intro Hx. apply (quiet_in _ _ _ Hq) in Hx. exact Hx. }
    destruct H as [ [Hs Ht] | [ (Hs & Hb) | [ [Hs Ht] | [ [Hs Ht]
                  | [ (Hs & _ & Ht) | (Hs & _ & Ht) ] ] ] ] ];
      try (rewrite Ht in Hin; try apply in_app_or in Hin;
           try (destruct Hin as [Hin | Hin]; [ contradiction | ]);
           try contradiction;
           try (simpl in Hin; destruct Hin as [Hin | [Hin | []]]; discriminate Hin);
           simpl in Hin; destruct Hin as [Hin | []]; discriminate Hin).
    destruct Hb as (vector & i & sorted & l & Don & S & F & Ht).
    rewrite Ht in Hin. apply in_app_or in Hin.
    destruct Hin as [Hin | Hin]; [ contradiction | ].
    simpl in Hin. destruct Hin as [Hin | [Hin | []]]; [ | discriminate Hin ].
    injection Hin as <-. split; [ exact Hs | ].
    exists vector, i, sorted, l. split; [ exact Don | ].
    split; [ now apply sort_children_Permutation | ].
    split; [ now apply (sort_children_ordered vector) | ].
    split; [ intros _ _; exact S | ]. split; [ exact F | ].
    split; [ now apply child_floor_Some | reflexivity ].
  - rewrite (main_null zh path errno start I) in H. injection H as <- <-.
    contradiction.
Qed.

Lemma blocked_reports_the_floor_witness :
  Some 0%Z = Some 0%Z /\
  exists vector i sorted lessthanme,
    decided_on zk_third_in_line "/lock"
      (snd (main zk_third_in_line "/lock" start)) vector i /\
    Permutation vector sorted /\
    Sorted vle sorted /\
    (distinct_suffixes vector -> Forall cstring vector ->
     sort_children vector = Some sorted) /\
    child_floor sorted i = Some lessthanme /\
    last_below sorted i lessthanme /\
    ("/lock/" ++ node_bb1)%string = ("/lock" ++ "/" ++ lessthanme)%string.
Proof.
  apply (blocked_reports_the_floor zk_third_in_line "/lock" (Some 0%Z)
           (snd (main zk_third_in_line "/lock" start))).
  - vm_compute. reflexivity.
  - vm_compute. auto 10.
Defined.

(** C10: when [zookeeper_init] fails, [main] returns [errno] and does nothing
    else.  With a handle, the exit status is 0 unless the run runs into
    undefined behaviour, and it is 0 in every run that reports one of the
    four outcomes: the lock held, the line naming who is in the way, the
    directory that could not be created, the exhausted budget.  The
    behaviour is undefined in one situation only: a round has resolved its
    own name, and the enumeration it then decides on, the reply to the last
    enumeration call of the run, is empty, or has two or more names of which
    one has no ['-'].  So the exit status is 0 in every run against a server
    whose listings are, from the second enumeration call on, not empty and
    of names with a ['-']. *)
Theorem exit_status_is_zero_after_init :
  forall (zh : zhandle_t) (path : string),
    match init_reply zh with
    | Null errno => main zh path start = (Some errno, start)
    | Handle =>
        (fst (main zh path start) = Some 0%Z \/
         fst (main zh path start) = None) /\
        (fst (main zh path start) = None ->
         ~ outcome_reported path (trace (snd (main zh path start)))) /\
        (fst (main zh path start) = None ->
         exists vector i,
           decided_on zh path (snd (main zh path start)) vector i /\
           (vector = [] \/
            (2 <= List.length vector /\
             Exists (fun name => strrchr name "-" = None) vector))) /\
        ((forall k vector,
             0 < k -> children_reply zh k = (ZOK, vector) ->
             vector <> [] /\ Forall has_dash vector) ->
         fst (main zh path start) = Some 0%Z)
    end.
Proof.
  intros zh path. destruct (init_reply zh) as [ | errno ] eqn:I;
    [ | now apply main_null ].
  destruct (main zh path start) as [status p'] eqn:M.
  apply (main_decides zh path status p' I) in M.
  destruct M as (evs & Hq & M). cbn [fst snd].
  assert (Zero : status = Some 0%Z ->
    (status = Some 0%Z \/ status = None) /\
    (status = None -> ~ outcome_reported path (trace p')) /\
    (status = None ->
     exists vector i,
       decided_on zh path p' vector i /\
       (vector = [] \/
        (2 <= List.length vector /\
         Exists (fun name => strrchr name "-" = None) vector))) /\
    ((forall k vector,
         0 < k -> children_reply zh k = (ZOK, vector) ->
         vector <> [] /\ Forall has_dash vector) ->
     status = Some 0%Z)).
  { intros ->. split; [ now left | ].
    split; [ discriminate | ]. split; [ discriminate | reflexivity ]. }
  destruct M as [ [Hs _] | [ [Hs _] | [ [Hs _] | [ [Hs _]
                | [ [Hs _] | (-> & Cause & ->) ] ] ] ] ];
    try (now apply Zero).
  destruct Cause as (vector & i & Don & Cause).
  apply sort_children_fails in Cause.
  split; [ now right | ]. split; [ | split ].
  - intros _ [ H | [ [x H] | [ H | H ] ] ];
      apply (quiet_in _ _ _ Hq) in H; simpl in H; try contradiction;
      destruct H as [H | H]; discriminate H.
  - intros _. now exists vector, i.
  - intro Well. exfalso.
    destruct Don as (j & k & n & _ & _ & Hjk & _ & _ & Hk & _).
    destruct (Well k vector ltac:(lia) Hk) as [Hne Hd].
    destruct Cause as [-> | [_ E] ]; [ now apply Hne | ].
    rewrite Exists_exists in E. destruct E as (name & Hin & Hn).
    rewrite Forall_forall in Hd. now apply (Hd name Hin).
Qed.

(** X16: the lock is held only by the first in line.  In every run that
    goes on to hold the lock, the exit status is 0, no ["LOCKED: "] line is
    printed, and the round that ended the lock loop went by this: its own
    name, the one it had resolved, compares equal to the first entry of the
    enumeration it decided on, ordered by [vstrcmp] as [qsort] left it, and
    [strcmp] puts no entry of that enumeration below the own name.  The
    enumeration is the reply to the last enumeration call of the run. *)
Theorem lock_is_held_only_by_the_first_in_line :
  forall (zh : zhandle_t) (path : string),
    In holds_lock (trace (snd (main zh path start))) ->
    fst (main zh path start) = Some 0%Z /\
    (forall last_child,
        ~ In (msg_blocked last_child) (trace (snd (main zh path start)))) /\
    exists vector i sorted first rest,
      decided_on zh path (snd (main zh path start)) vector i /\
      Permutation vector sorted /\
      Sorted vle sorted /\
      (distinct_suffixes vector -> Forall cstring vector ->
       sort_children vector = Some sorted) /\
      sorted = first :: rest /\
      strcmp i first = 0%Z /\
      child_floor sorted i = None /\
      Forall (fun d => (0 <= strcmp d i)%Z) vector.
Proof.
  intros zh path Hin.
  destruct (init_reply zh) as [ | errno ] eqn:I;
    [ | rewrite (main_null zh path errno start I) in Hin; contradiction ].
  destruct (main zh path start) as [status p'] eqn:M.
  apply (main_decides zh path status p' I) in M.
  destruct M as (evs & Hq & M). cbn [fst snd] in *.
  assert (NotQuiet : ~ In holds_lock evs).
  { intro H. apply (quiet_in _ _ _ Hq) in H. exact H. }
  destruct M as [ [Hs Ht] | [ (Hs & v & i & s & l & _ & _ & _ & Ht)
                | [ [Hs Ht] | [ [Hs Ht]
                | [ (Hs & Hd & Ht) | (Hs & _ & Ht) ] ] ] ] ];
    rewrite Ht in Hin; try (apply in_app_or in Hin; destruct Hin as [Hin | Hin]);
    try contradiction;
    try (simpl in Hin; destruct Hin as [Hin | [Hin | []]]; discriminate Hin);
    try (simpl in Hin; destruct Hin as [Hin | []]; discriminate Hin).
  split; [ exact Hs | ]. split.
  { intros last_child Hb. rewrite Ht in Hb.
    apply in_app_or in Hb. destruct Hb as [Hb | [Hb | [Hb | []]]];
      [ apply (quiet_in _ _ _ Hq) in Hb; exact Hb | discriminate Hb | discriminate Hb ]. }
  destruct Hd as (vector & i & first & rest & Don & S & F & Z0).
  pose proof (sort_children_Permutation _ _ S) as P.
  exists vector, i, (first :: rest), first, rest. split; [ exact Don | ].
  split; [ exact P | ].
  split; [ now apply (sort_children_ordered vector) | ].
  split; [ intros _ _; exact S | ]. split; [ reflexivity | ].
  split; [ exact Z0 | ]. split; [ exact F | ].
  apply (Permutation_Forall (Permutation_sym P)). now apply child_floor_None.
Qed.

Lemma lock_is_held_only_by_the_first_in_line_witness :
  fst (main zk_alone "/lock" start) = Some 0%Z /\
  (forall last_child,
      ~ In (msg_blocked last_child) (trace (snd (main zk_alone "/lock" start)))) /\
  exists vector i sorted first rest,
    decided_on zk_alone "/lock" (snd (main zk_alone "/lock" start)) vector i /\
    Permutation vector sorted /\
    Sorted vle sorted /\
    (distinct_suffixes vector -> Forall cstring vector ->
     sort_children vector = Some sorted) /\
    sorted = first :: rest /\
    strcmp i first = 0%Z /\
    child_floor sorted i = None /\
    Forall (fun d => (0 <= strcmp d i)%Z) vector.
Proof.
  apply lock_is_held_only_by_the_first_in_line.
  vm_compute. repeat first [ left; reflexivity | right ].
Defined.

(** X17: when the directory is there (the first check returns neither a
    connection loss nor "no node") and no enumeration ever succeeds, the run
    goes through all five rounds of the lock loop, creates nothing, prints the
    line of the exhausted budget, closes the handle and returns 0. *)
Theorem run_without_enumeration_is_exhausted :
  forall (zh : zhandle_t) (path : string),
    init_reply zh = Handle ->
    exists_reply zh 0 <> ZCONNECTIONLOSS ->
    exists_reply zh 0 <> ZNONODE ->
    (forall n, fst (children_reply zh n) <> ZOK) ->
    fst (main zh path start) = Some 0%Z /\
    (exists evs,
        Forall (quiet ts_init) evs /\
        trace (snd (main zh path start))
        = evs ++ [msg_exhausted path; Zookeeper_close]) /\
    exists_calls (snd (main zh path start)) = 1 /\
    create_calls (snd (main zh path start)) = 0 /\
    client_id_calls (snd (main zh path start)) = 5.
Proof.
  intros zh path I N1 N2 Hno. rewrite (main_handle zh path start I). cbv zeta.
  rewrite ensure_loop_S. cbn [start exists_calls].
  apply rc_eqb_neq in N1, N2. rewrite N1, N2. cbn [orb andb fst snd Nat.leb].
  destruct (lock_loop_without_children zh path ts_init 5 6 Hno 0
              {| id := None; ownerid := None |}
              (snd (zoo_exists zh path start)) ltac:(lia) ltac:(lia))
    as (L1 & L2 & L3 & L4).
  destruct (lock_loop 6 zh path ts_init 5 0 {| id := None; ownerid := None |}
              (snd (zoo_exists zh path start))) as [[[c n2] v2] p2] eqn:L.
  apply lock_loop_counts in L. destruct L as (_ & _ & Le & _).
  cbn [fst snd] in *. injection L1 as -> -> ->. cbn [Nat.leb fst snd].
  split; [ reflexivity | ]. split; [ | split; [ | split ] ].
  - destruct L4 as (evs & Ht & Hq). exists (Zoo_exists path :: evs). split.
    + constructor; [ exact Logic.I | exact Hq ].
    + simpl. rewrite Ht. simpl. now rewrite <- !app_assoc.
  - simpl. exact Le.
  - simpl. exact L2.
  - simpl. rewrite L3. reflexivity.
Qed.

Lemma run_without_enumeration_is_exhausted_witness :
  fst (main zk_flaky_then_refused "/lock" start) = Some 0%Z /\
  (exists evs,
      Forall (quiet ts_init) evs /\
      trace (snd (main zk_flaky_then_refused "/lock" start))
      = evs ++ [msg_exhausted "/lock"; Zookeeper_close]) /\
  exists_calls (snd (main zk_flaky_then_refused "/lock" start)) = 1 /\
  create_calls (snd (main zk_flaky_then_refused "/lock" start)) = 0 /\
  client_id_calls (snd (main zk_flaky_then_refused "/lock" start)) = 5.
Proof.
  apply run_without_enumeration_is_exhausted.
  - reflexivity.
  - discriminate.
  - discriminate.
  - intros [ | [ | n ] ]; discriminate.
Defined.

Lemma retry_getchildren_first_reply (zh : zhandle_t) (path : string)
    (ts : timespec) (retry : nat) (vector : list string) (p : process) :
  0 < retry ->
  fst (children_reply zh (children_calls p)) <> ZCONNECTIONLOSS ->
  retry_getchildren zh path vector ts retry p
  = ((fst (children_reply zh (children_calls p)),
      if rc_eqb (fst (children_reply zh (children_calls p))) ZOK
      then snd (children_reply zh (children_calls p)) else vector),
     snd (zoo_get_children zh path p)).
Proof.
  intros Hr Hn. unfold retry_getchildren.
  rewrite (retry_getchildren_loop_runs zh path ts retry 0); try lia.
  - cbv zeta. rewrite !after_losses_0. cbn [Nat.add].
    now replace (0 <? retry) with true by (symmetry; now apply Nat.ltb_lt).
  - intros _. now rewrite Nat.add_0_r.
Qed.

(** A round in which both enumerations succeed at the first try. *)
Lemma lock_attempt_smooth (zh : zhandle_t) (path : string) (ts : timespec)
    (maxretry : nat) (vars : locals) (p : process)
    (v0 v1 : list string) (own : string) :
  0 < maxretry ->
  children_reply zh (children_calls p) = (ZOK, v0) ->
  children_reply zh (S (children_calls p)) = (ZOK, v1) ->
  let prefix := session_prefix (client_id_reply zh (client_id_calls p)) in
  lookupnode v0 prefix = Some own \/
  (lookupnode v0 prefix = None /\
   fst (create_reply zh (create_calls p)) = ZOK /\
   getName (retbuf_after path prefix (snd (create_reply zh (create_calls p))))
   = Some own) ->
  let creates := match lookupnode v0 prefix with
                 | Some _ => []
                 | None => [Zoo_create (path ++ "/" ++ prefix)%string 3]
                 end in
  let quiet_part := trace p ++ [Zoo_get_children path] ++ creates
                    ++ [Zoo_get_children path] in
  let r := lock_attempt zh path ts maxretry vars p in
  match sort_children v1 with
  | Some (first :: rest) =>
      match child_floor (first :: rest) own with
      | Some lessthanme =>
          fst (fst r) = Goto_exitnow /\
          trace (snd r)
          = quiet_part ++ [msg_blocked (path ++ "/" ++ lessthanme)%string]
      | None =>
          fst r = (Break, {| id := Some own; ownerid := Some first |}) /\
          trace (snd r) = quiet_part
      end
  | _ => fst (fst r) = Undefined /\ trace (snd r) = quiet_part
  end.
Proof.
  intros Hm H0 H1 prefix Hown creates quiet_part r.
  subst r. rewrite lock_attempt_eq. cbv zeta. fold prefix.
  rewrite retry_getchildren_first_reply;
    [ | exact Hm | cbn [zoo_client_id snd children_calls]; rewrite H0; discriminate ].
  cbn [zoo_client_id snd children_calls fst]. rewrite H0. cbn [fst snd rc_eqb negb].
  set (pC := snd (zoo_get_children zh path _)).
  assert (Res : exists pD,
             resolve_candidate zh path prefix v0 pC = (Some (Some own), pD) /\
             children_calls pD = S (children_calls p) /\
             trace pD = trace p ++ [Zoo_get_children path] ++ creates).
  { destruct Hown as [L | (L & C1 & C2)].
    - exists pC. rewrite (resolve_candidate_found zh path _ _ _ pC L).
      subst creates. rewrite L. repeat split.
    - rewrite (resolve_candidate_absent zh path _ _ pC L). cbv zeta.
      change (create_calls pC) with (create_calls p). rewrite C1, C2.
      cbn [rc_eqb negb]. eexists. split; [ reflexivity | ].
      subst creates. rewrite L, snprintf_buf. simpl. now rewrite <- app_assoc. }
  destruct Res as (pD & -> & HcD & HtD). cbn [fst snd].
  rewrite decide_eq. cbv zeta.
  rewrite retry_getchildren_first_reply;
    [ | exact Hm | rewrite HcD, H1; discriminate ].
  rewrite HcD, H1. cbn [fst snd rc_eqb negb].
  assert (Tr : trace (snd (zoo_get_children zh path pD)) = quiet_part).
  { subst quiet_part. simpl. rewrite HtD. now rewrite <- !app_assoc. }
  destruct (sort_children v1) as [ [ | first rest ] | ]; cbn [fst snd];
    try (split; [ reflexivity | exact Tr ]).
  destruct (child_floor (first :: rest) own); cbn [fst snd].
  - split; [ reflexivity | ]. cbn [emit snd trace]. now rewrite Tr.
  - split; [ reflexivity | exact Tr ].
Qed.

(** X18: the first round decides when the network is well.  With a handle,
    the directory in place and both enumerations of the first round answered
    at the first try, the program takes for its name the child with its
    prefix, or creates the node when there is none and reads its name from
    [retbuf], and then ends at once.  With the second enumeration ordered by
    [vstrcmp] as [qsort] left it, the run prints the path of the floor when
    there is one, holds the lock when there is none and its name compares
    equal to the first sorted entry, and closes in silence otherwise, each
    with exit status 0.  The behaviour is undefined when the second
    enumeration is empty, or has two or more names of which one has no
    ['-']. *)
Theorem first_round_decides :
  forall (zh : zhandle_t) (path : string) (v0 v1 : list string) (own : string),
    init_reply zh = Handle ->
    exists_reply zh 0 <> ZCONNECTIONLOSS ->
    exists_reply zh 0 <> ZNONODE ->
    children_reply zh 0 = (ZOK, v0) ->
    children_reply zh 1 = (ZOK, v1) ->
    let prefix := session_prefix (client_id_reply zh 0) in
    lookupnode v0 prefix = Some own \/
    (lookupnode v0 prefix = None /\
     fst (create_reply zh 0) = ZOK /\
     getName (retbuf_after path prefix (snd (create_reply zh 0))) = Some own) ->
    let creates := match lookupnode v0 prefix with
                   | Some _ => []
                   | None => [Zoo_create (path ++ "/" ++ prefix)%string 3]
                   end in
    let quiet_part := [Zoo_exists path; Nanosleep ts_init; Zoo_get_children path]
                      ++ creates ++ [Zoo_get_children path] in
    (exists sorted ending,
        Permutation v1 sorted /\
        Sorted vle sorted /\
        (distinct_suffixes v1 -> Forall cstring v1 ->
         sort_children v1 = Some sorted) /\
        decision_ending path (Some sorted) own = Some ending /\
        fst (main zh path start) = Some 0%Z /\
        trace (snd (main zh path start)) = quiet_part ++ ending) \/
    ((v1 = [] \/
      (2 <= List.length v1 /\ Exists (fun name => strrchr name "-" = None) v1)) /\
     fst (main zh path start) = None /\
     trace (snd (main zh path start)) = quiet_part).
Proof.
  intros zh path v0 v1 own I N1 N2 H0 H1 prefix Hown creates quiet_part.
  rewrite (main_handle zh path start I). cbv zeta.
  rewrite ensure_loop_S. cbn [start exists_calls].
  apply rc_eqb_neq in N1, N2. rewrite N1, N2. cbn [orb andb fst snd Nat.leb].
  rewrite lock_loop_S. cbn [Nat.ltb Nat.leb]. cbv zeta.
  set (pA := snd (nanosleep ts_init (snd (zoo_exists zh path start)))).
  pose proof (lock_attempt_smooth zh path ts_init 5
                {| id := None; ownerid := None |} pA v0 v1 own
                ltac:(lia) H0 H1 Hown) as A.
  cbv zeta in A. fold prefix in A. fold creates in A.
  change (trace pA) with [Zoo_exists path; Nanosleep ts_init] in A.
  destruct (lock_attempt zh path ts_init 5 {| id := None; ownerid := None |} pA)
    as [[c v] p2].
  cbn [fst snd] in *.
  destruct (sort_children v1) as [ [ | first rest ] | ] eqn:S.
  - right. destruct A as [-> Tr]. cbn [fst snd].
    split; [ apply sort_children_fails; now right | ].
    split; [ reflexivity | exact Tr ].
  - left. pose proof (sort_children_Permutation _ _ S) as P.
    pose proof (sort_children_ordered _ _ S) as O.
    destruct (child_floor (first :: rest) own) as [ l | ] eqn:F.
    + destruct A as [-> Tr]. cbn [fst snd].
      exists (first :: rest),
        [msg_blocked (path ++ "/" ++ l)%string; Zookeeper_close].
      split; [ exact P | ]. split; [ exact O | ].
      split; [ intros _ _; reflexivity | ].
      split; [ unfold decision_ending; now rewrite F | ].
      split; [ reflexivity | ].
      cbn [zookeeper_close emit snd trace]. rewrite Tr.
      subst quiet_part creates. simpl. now rewrite <- !app_assoc.
    + destruct A as [A Tr]. injection A as -> ->. cbn [fst snd Nat.leb id ownerid].
      exists (first :: rest),
        (if (strcmp own first =? 0)%Z then [holds_lock; Zookeeper_close]
         else [Zookeeper_close]).
      split; [ exact P | ]. split; [ exact O | ].
      split; [ intros _ _; reflexivity | ].
      split; [ unfold decision_ending; rewrite F;
               now destruct (strcmp own first =? 0)%Z | ].
      destruct (strcmp own first =? 0)%Z; cbn [negb fst snd];
        (split; [ reflexivity | ]);
        cbn [zookeeper_close sleep holds_lock emit snd trace]; rewrite Tr;
        subst quiet_part creates; simpl; now rewrite <- !app_assoc.
  - right. destruct A as [-> Tr]. cbn [fst snd].
    split; [ apply sort_children_fails; now left | ].
    split; [ reflexivity | exact Tr ].
Qed.

Lemma first_round_decides_witness :
  (exists sorted ending,
      Permutation [node_cc2; node_aa0; node_bb1] sorted /\
      Sorted vle sorted /\
      (distinct_suffixes [node_cc2; node_aa0; node_bb1] ->
       Forall cstring [node_cc2; node_aa0; node_bb1] ->
       sort_children [node_cc2; node_aa0; node_bb1] = Some sorted) /\
      decision_ending "/lock" (Some sorted) node_cc2 = Some ending /\
      fst (main zk_third_in_line "/lock" start) = Some 0%Z /\
      trace (snd (main zk_third_in_line "/lock" start))
      = ([Zoo_exists "/lock"; Nanosleep ts_init; Zoo_get_children "/lock"]
         ++ [] ++ [Zoo_get_children "/lock"]) ++ ending) \/
  (([node_cc2; node_aa0; node_bb1] = [] \/
    (2 <= List.length [node_cc2; node_aa0; node_bb1] /\
     Exists (fun name => strrchr name "-" = None) [node_cc2; node_aa0; node_bb1])) /\
   fst (main zk_third_in_line "/lock" start) = None /\
   trace (snd (main zk_third_in_line "/lock" start))
   = [Zoo_exists "/lock"; Nanosleep ts_init; Zoo_get_children "/lock"]
     ++ [] ++ [Zoo_get_children "/lock"]).
Proof.
  apply (first_round_decides zk_third_in_line "/lock"
           [node_cc2; node_aa0; node_bb1] [node_cc2; node_aa0; node_bb1] node_cc2).
  - reflexivity.
  - discriminate.
  - discriminate.
  - reflexivity.
  - reflexivity.
  - left. vm_compute. reflexivity.
Defined.
